(** * changelog-agent: the document-merge protocol of
      [scripts/gen_changelog.py] and [scripts/update_agents.py]

    A shallow embedding of the two scripts.  A Python [str] is a list of
    Unicode code points; the scripts' module-level code becomes functions of
    the process inputs (PR context, generator outcome, file on disk) that
    return the file afterwards together with the way the process ended.
    The changelog file is given by the text its bytes decode to: reading
    translates its line ends, and writing fails on a text that has no
    encoding. *)

From Stdlib Require Import Strings.String Strings.Ascii.
From Stdlib Require Import List ZArith NArith Bool Lia Arith Sorted.
From Stdlib Require Import Numbers.DecimalPos Numbers.DecimalN Numbers.DecimalZ.
Import ListNotations.

(** ** Python strings *)

Module PyStr.

(** A character is a Unicode code point, a string a sequence of them. *)
Definition char := N.
Definition str := list char.

Definition LF : char := 10%N.

(** ASCII literals of the source, written as Rocq strings. *)
Fixpoint lit (s : string) : str :=
  match s with
  | EmptyString => []
  | String a s' => N_of_ascii a :: lit s'
  end.

Definition char_eqb (a b : char) : bool := N.eqb a b.

Fixpoint str_eqb (a b : str) : bool :=
  match a, b with
  | [], [] => true
  | x :: a', y :: b' => char_eqb x y && str_eqb a' b'
  | _, _ => false
  end.

(** [s.startswith(p)] *)
Fixpoint startswith (p s : str) : bool :=
  match p, s with
  | [], _ => true
  | x :: p', y :: s' => char_eqb x y && startswith p' s'
  | _ :: _, [] => false
  end.

(** [s.endswith(p)] *)
Definition endswith (p s : str) : bool := startswith (rev p) (rev s).

(** [sub in s] *)
Fixpoint contains (sub s : str) : bool :=
  startswith sub s ||
  match s with
  | [] => false
  | _ :: s' => contains sub s'
  end.

(** [s.find(sub)], with [None] for -1. *)
Fixpoint find (sub s : str) : option nat :=
  if startswith sub s then Some 0
  else match s with
       | [] => None
       | _ :: s' => option_map S (find sub s')
       end.

(** [s.replace(old, new)]: every occurrence, left to right, not overlapping.
    [skip] counts the characters of an occurrence still to be passed over. *)
Fixpoint replace_from (old new : str) (skip : nat) (s : str) : str :=
  match s with
  | [] => []
  | c :: s' =>
      match skip with
      | S k => replace_from old new k s'
      | O => if startswith old s
             then new ++ replace_from old new (length old - 1) s'
             else c :: replace_from old new 0 s'
      end
  end.

Definition replace (old new s : str) : str :=
  match old with
  | [] => new ++ flat_map (fun c => c :: new) s
  | _ :: _ => replace_from old new 0 s
  end.

(** [s.count(sub)] for a non-empty [sub]: occurrences found left to right,
    not overlapping. *)
Fixpoint count_from (sub : str) (skip : nat) (s : str) : nat :=
  match s with
  | [] => 0
  | _ :: s' =>
      match skip with
      | S k => count_from sub k s'
      | O => if startswith sub s
             then S (count_from sub (length sub - 1) s')
             else count_from sub 0 s'
      end
  end.

Definition count (sub s : str) : nat :=
  match sub with
  | [] => S (length s)
  | _ :: _ => count_from sub 0 s
  end.

(** [sep.join(parts)] *)
Fixpoint join (sep : str) (parts : list str) : str :=
  match parts with
  | [] => []
  | [p] => p
  | p :: rest => p ++ sep ++ join sep rest
  end.

(** [str.isspace] on one code point: the white space [str.strip()] removes. *)
Definition is_space (c : char) : bool :=
  ((9 <=? c) && (c <=? 13) || (28 <=? c) && (c <=? 32)
   || (c =? 133) || (c =? 160) || (c =? 5760)
   || (8192 <=? c) && (c <=? 8202)
   || (c =? 8232) || (c =? 8233) || (c =? 8239) || (c =? 8287)
   || (c =? 12288))%N.

Fixpoint lstrip (s : str) : str :=
  match s with
  | [] => []
  | c :: s' => if is_space c then lstrip s' else s
  end.

Definition rstrip (s : str) : str := rev (lstrip (rev s)).

(** [s.strip()] *)
Definition strip (s : str) : str := rstrip (lstrip s).

(** Newlines at the start and at the end of a text. *)
Fixpoint leading_newlines (s : str) : nat :=
  match s with
  | c :: s' => if char_eqb c LF then S (leading_newlines s') else 0
  | [] => 0
  end.

Definition trailing_newlines (s : str) : nat := leading_newlines (rev s).

(** Truth value of a string: non-empty. *)
Definition truthy (s : str) : bool :=
  match s with [] => false | _ :: _ => true end.

(** Lexicographic order on code points: [<] of [str]. *)
Fixpoint str_ltb (a b : str) : bool :=
  match a, b with
  | _, [] => false
  | [], _ :: _ => true
  | x :: a', y :: b' => (x <? y)%N || (x =? y)%N && str_ltb a' b'
  end.

Definition str_lt (a b : str) : Prop := str_ltb a b = true.

(** [sorted(set(l))]: the distinct elements in increasing order. *)
Fixpoint insert_sorted (x : str) (l : list str) : list str :=
  match l with
  | [] => [x]
  | y :: l' =>
      if str_eqb x y then l
      else if str_ltb x y then x :: l
      else y :: insert_sorted x l'
  end.

Definition sorted_set (l : list str) : list str :=
  fold_right insert_sorted [] l.

(** [str(n)] for an [int]. *)
Fixpoint uint_str (d : Decimal.uint) : str :=
  match d with
  | Decimal.Nil => []
  | Decimal.D0 d => 48%N :: uint_str d
  | Decimal.D1 d => 49%N :: uint_str d
  | Decimal.D2 d => 50%N :: uint_str d
  | Decimal.D3 d => 51%N :: uint_str d
  | Decimal.D4 d => 52%N :: uint_str d
  | Decimal.D5 d => 53%N :: uint_str d
  | Decimal.D6 d => 54%N :: uint_str d
  | Decimal.D7 d => 55%N :: uint_str d
  | Decimal.D8 d => 56%N :: uint_str d
  | Decimal.D9 d => 57%N :: uint_str d
  end.

Definition int_str (z : Z) : str :=
  match Z.to_int z with
  | Decimal.Pos d => uint_str d
  | Decimal.Neg d => 45%N :: uint_str d
  end.

End PyStr.

Import PyStr.

(** ** The part of [re] the scripts use *)

Module Re.

Section Engine.

(** [str.isalnum] on code points from 128 up: the Unicode character
    database, which is not part of the repository. *)
Variable unicode_alnum : char -> bool.

(** [\w]: alphanumeric or underscore. *)
Definition is_word (c : char) : bool :=
  if (c <? 128)%N
  then ((48 <=? c) && (c <=? 57) || (65 <=? c) && (c <=? 90)
        || (97 <=? c) && (c <=? 122) || (c =? 95))%N
  else unicode_alnum c.

Definition word_before (o : option char) : bool :=
  match o with
  | Some c => is_word c
  | None => false
  end.

(** [\b] between the character before the position and the one at it. *)
Definition at_boundary (prev next : option char) : bool :=
  xorb (word_before prev) (word_before next).

(** A pattern is a sequence of: an ordinary (or escaped) character; the lazy
    [[\s\S]*?], which takes any characters, as few as possible; [\b]. *)
Inductive atom :=
| Chr (c : char)
| AnyLazy
| WordB.

(** The pattern matching a string literally, as [re.escape] builds it. *)
Definition escape (s : str) : list atom := map Chr s.

(** Match [pat] at the head of [s], backtracking in the engine's order;
    [prev] is the character before [s].  Returns the length matched. *)
Fixpoint match_at (pat : list atom) (prev : option char) (s : str)
  : option nat :=
  match pat with
  | [] => Some 0
  | Chr c :: pat' =>
      match s with
      | x :: s' =>
          if char_eqb x c then option_map S (match_at pat' (Some x) s')
          else None
      | [] => None
      end
  | WordB :: pat' =>
      if at_boundary prev (hd_error s) then match_at pat' prev s else None
  | AnyLazy :: pat' =>
      (fix lazy (prev : option char) (s : str) : option nat :=
         match match_at pat' prev s with
         | Some n => Some n
         | None =>
             match s with
             | [] => None
             | x :: s' => option_map S (lazy (Some x) s')
             end
         end) prev s
  end.

Definition shift (m : nat * nat) : nat * nat := (S (fst m), S (snd m)).

(** [re.search]: the first position at which the pattern matches, with the
    match's start and end. *)
Fixpoint search_from (pat : list atom) (prev : option char) (s : str)
  : option (nat * nat) :=
  match match_at pat prev s with
  | Some n => Some (0, n)
  | None =>
      match s with
      | [] => None
      | x :: s' => option_map shift (search_from pat (Some x) s')
      end
  end.

Definition search (pat : list atom) (s : str) : option (nat * nat) :=
  search_from pat None s.

End Engine.

(** The character before the position reached after reading [l]. *)
Fixpoint last_before (prev : option char) (l : str) : option char :=
  match l with
  | [] => prev
  | x :: l' => last_before (Some x) l'
  end.

(** A table without alphanumerics beyond ASCII.  The engine consults the
    table on code points from 128 up only. *)
Definition ascii_alnum_only : char -> bool := fun _ => false.

End Re.

(** ** Text files: [Path.read_text] and [Path.write_text]

    A file is given by the text its bytes decode to.  Reading in text mode
    turns every [\r\n] and every other [\r] into [\n] (universal
    newlines); writing encodes the whole text first, after the file was
    opened and so emptied, and a lone surrogate has no UTF-8 encoding.  The
    scripts run where the line separator is [\n], which is written as it
    is. *)

Module TextFile.

Definition CR : char := 13%N.

Fixpoint universal_newlines (s : str) : str :=
  match s with
  | [] => []
  | c :: s' =>
      if char_eqb c CR
      then LF :: match s' with
                 | d :: s'' =>
                     if char_eqb d LF then universal_newlines s''
                     else universal_newlines s'
                 | [] => []
                 end
      else c :: universal_newlines s'
  end.

Definition is_surrogate (c : char) : bool :=
  ((55296 <=? c) && (c <=? 57343))%N.

(** The text has a UTF-8 encoding: [write_text] does not raise
    [UnicodeEncodeError]. *)
Definition encodable (s : str) : bool :=
  forallb (fun c => negb (is_surrogate c)) s.

(** [s.split(c)] for a separator of one character. *)
Fixpoint split_on (c : char) (s : str) : list str :=
  match s with
  | [] => [[]]
  | x :: s' =>
      if char_eqb x c then [] :: split_on c s'
      else match split_on c s' with
           | l :: ls => (x :: l) :: ls
           | [] => [[x]]
           end
  end.

End TextFile.

Import TextFile.

(** ** [scripts/gen_changelog.py] *)

Module GenChangelog.

(** The generator's JSON object: the fields of the [ChangelogEntry] schema,
    each present or not, with the schema's types. *)
Record entry := {
  category : option str;
  summary : option str;
  scope : option str;
  breaking : option bool;
  migration : option str;
  references : option (list str)
}.

(** What the script keeps of the PR: [author], [title], [scope_guess]. *)
Record pr_context := {
  author : str;
  title : str;
  scope_guess : str
}.

(** Outcome of the [try] block: [responses.create] or [json.loads] raised;
    the text parsed to something other than an object; or to an object. *)
Inductive generation :=
| Raises
| NotAnObject
| Object (e : entry).

(** How the process ends: the guard's [sys.exit(0)], the last line, the
    [AttributeError] of [parsed.get] on a value that is not a dict, or the
    [UnicodeEncodeError] of the last line's [write_text]. *)
Inductive ending :=
| ExitZero
| Completed
| Uncaught
| WriteFails.

Definition UNRELEASED : str := lit "## [Unreleased]".
Definition UNRELEASED_LINE : str := UNRELEASED ++ [LF].

Definition skeleton : str :=
  lit "# Changelog" ++ [LF; LF]
  ++ lit "All notable changes to this project will be documented in this file."
  ++ [LF; LF]
  ++ lit "The format is based on [Keep a Changelog](https://keepachangelog.com/en/1.1.0/), "
  ++ lit "and this project adheres to [Semantic Versioning](https://semver.org/spec/v2.0.0.html)."
  ++ [LF; LF]
  ++ UNRELEASED ++ [LF; LF].

(** The warning sign and its variation selector, then [" BREAKING"]. *)
Definition BREAKING : str := [9888%N; 65039%N] ++ lit " BREAKING".

Definition get_str (o : option str) (default : str) : str :=
  match o with Some s => s | None => default end.

Definition truthy_str (o : option str) : bool :=
  match o with Some s => truthy s | None => false end.

Definition truthy_bool (o : option bool) : bool :=
  match o with Some b => b | None => false end.

(** The [except] branch. *)
Definition fallback (ctx : pr_context) : entry :=
  {| category := Some (lit "Changed");
     summary := Some (firstn 200 (strip (title ctx)));
     scope := Some (scope_guess ctx);
     breaking := Some false;
     migration := Some [];
     references := Some [] |}.

(** [parsed] after the [try] statement; [None] when it is not a dict. *)
Definition generate (ctx : pr_context) (g : generation) : option entry :=
  match g with
  | Raises => Some (fallback ctx)
  | NotAnObject => None
  | Object e => Some e
  end.

Definition pr_ref (PR_NUMBER : Z) : str := lit "#" ++ int_str PR_NUMBER.
Definition author_ref (ctx : pr_context) : str := lit "@" ++ author ctx.

(** Lines 106-108: the references with the PR and the author added. *)
Definition normalize (PR_NUMBER : Z) (ctx : pr_context) (p : entry) : entry :=
  let refs := match references p with Some l => l | None => [] end in
  {| category := category p;
     summary := summary p;
     scope := scope p;
     breaking := breaking p;
     migration := migration p;
     references :=
       Some (sorted_set (refs ++ [pr_ref PR_NUMBER; author_ref ctx])) |}.

Definition section_header (header : str) : str :=
  lit "### " ++ header ++ [LF].

Definition ensure_section (txt header : str) : str :=
  let marker := LF :: section_header header in
  if negb (contains marker txt)
  then replace UNRELEASED_LINE
         (UNRELEASED_LINE ++ [LF] ++ section_header header ++ [LF]) txt
  else txt.

Definition bullet_parts (p : entry) : list str :=
  (if truthy_str (scope p)
   then [lit "[" ++ get_str (scope p) [] ++ lit "]"] else [])
  ++ (if truthy_bool (breaking p) then [BREAKING] else [])
  ++ [get_str (summary p) []].

Definition bullet (p : entry) : str :=
  lit " - " ++ join (lit " ") (filter truthy (bullet_parts p)).

(** [parsed["references"]] is set by [normalize] when this is read. *)
Definition refs_str (p : entry) : str :=
  lit " ("
  ++ join (lit ", ") (match references p with Some l => l | None => [] end)
  ++ lit ")".

Definition insertion (p : entry) : str :=
  bullet p ++ refs_str p ++ [LF]
  ++ (if truthy_bool (breaking p) && truthy_str (migration p)
      then lit "   - **Migration:** " ++ get_str (migration p) [] ++ [LF]
      else []).

(** [### cat] does occur after a [## [Unreleased]]. *)
Definition heading_after_unreleased (cat text : str) : bool :=
  match find UNRELEASED text with
  | Some i =>
      contains (section_header cat) (skipn (i + length UNRELEASED) text)
  | None => false
  end.

Section Script.

Variable unicode_alnum : char -> bool.

(** The text holds the reference [#N] with no word character after it. *)
Definition contains_token (PR_NUMBER : Z) (text : str) : Prop :=
  exists pre post,
    text = pre ++ pr_ref PR_NUMBER ++ post
    /\ match post with
       | [] => True
       | c :: _ => Re.is_word unicode_alnum c = false
       end.

(** [(#){PR_NUMBER}\b]: the number's digits (and sign) are ordinary
    characters of the pattern. *)
Definition guard_pattern (PR_NUMBER : Z) : list Re.atom :=
  Re.escape (pr_ref PR_NUMBER) ++ [Re.WordB].

(** The idempotency test of line 127. *)
Definition already_recorded (PR_NUMBER : Z) (text : str) : bool :=
  match Re.search unicode_alnum (guard_pattern PR_NUMBER) text with
  | Some _ => true
  | None => false
  end.

(** [(## \[Unreleased\][\s\S]*?### {re.escape(category)}\n)] *)
Definition section_pattern (cat : str) : list Re.atom :=
  Re.escape UNRELEASED ++ [Re.AnyLazy] ++ Re.escape (section_header cat).

(** Lines 153-159: the insertion at the end of the match, or the
    replacement when nothing matches. *)
Definition splice (p : entry) (cat text : str) : str :=
  match Re.search unicode_alnum (section_pattern cat) text with
  | Some (_, idx) => firstn idx text ++ insertion p ++ skipn idx text
  | None =>
      replace UNRELEASED_LINE
        (UNRELEASED_LINE ++ [LF] ++ section_header cat ++ insertion p ++ [LF])
        text
  end.

(** Lines 136-159: the text written back, from the text read. *)
Definition merge (p : entry) (text : str) : str :=
  let cat := get_str (category p) (lit "Changed") in
  let text := ensure_section text cat in
  splice p cat text.

(** The script from the [try] statement on: the changelog file before
    ([None]: no file) to the file after and the way the process ends.  A
    missing file is first written with the skeleton; the text worked on is
    the file's as [read_text] gives it; the last line's [write_text] empties
    the file and then raises when the text cannot be encoded. *)
Definition run (PR_NUMBER : Z) (ctx : pr_context) (g : generation)
    (disk : option str) : option str * ending :=
  match generate ctx g with
  | None => (disk, Uncaught)
  | Some parsed =>
      let parsed := normalize PR_NUMBER ctx parsed in
      let on_disk := match disk with Some t => t | None => skeleton end in
      let text := universal_newlines on_disk in
      if already_recorded PR_NUMBER text then (Some on_disk, ExitZero)
      else
        let text := merge parsed text in
        if encodable text then (Some text, Completed)
        else (Some [], WriteFails)
  end.

End Script.

(** The entry of the end-to-end scenario and its PR. *)
Definition scenario_entry : entry :=
  {| category := Some (lit "Fixed");
     summary := Some (lit "Fix crash on empty input");
     scope := Some (lit "parser");
     breaking := Some true;
     migration := Some (lit "Call initParser() before use");
     references := Some [lit "#7"] |}.

Definition scenario_ctx (title scope_guess : str) : pr_context :=
  {| author := lit "alice"; title := title; scope_guess := scope_guess |}.

Definition scenario_bullet : str :=
  lit " - [parser] " ++ BREAKING
  ++ lit " Fix crash on empty input (#7, #99, @alice)" ++ [LF].

Definition scenario_migration : str :=
  lit "   - **Migration:** Call initParser() before use" ++ [LF].

(** A changelog whose only [### Security] section belongs to release 1.0.0. *)
Definition released_security_doc : str :=
  lit "# Changelog" ++ [LF; LF]
  ++ UNRELEASED ++ [LF; LF]
  ++ lit "## [1.0.0]" ++ [LF; LF]
  ++ lit "### Security" ++ [LF]
  ++ lit " - Rotate keys (#1, @bob)" ++ [LF].

Definition security_entry : entry :=
  {| category := Some (lit "Security");
     summary := Some (lit "Patch login bypass");
     scope := None;
     breaking := Some false;
     migration := None;
     references := Some [] |}.

(** The block the end-to-end scenario is said to insert: a blank line between
    the header and the bullet. *)
Definition scenario_claimed_block : str :=
  lit "### Fixed" ++ [LF; LF] ++ scenario_bullet ++ scenario_migration.

(** A PR whose title starts with a blank. *)
Definition padded_title_ctx : pr_context :=
  {| author := lit "alice"; title := lit " x"; scope_guess := lit "src" |}.

(** A changelog that already records PR 42. *)
Definition recorded_doc : str :=
  lit "# Changelog" ++ [LF; LF]
  ++ UNRELEASED ++ [LF; LF]
  ++ lit "### Fixed" ++ [LF]
  ++ lit " - Fix crash (#42, @bob)" ++ [LF].

(** An [### Added] section that holds an entry. *)
Definition added_entry : entry :=
  {| category := Some (lit "Added");
     summary := Some (lit "Add dark mode");
     scope := None;
     breaking := Some false;
     migration := None;
     references := Some [] |}.

Definition added_pre : str := lit "# Changelog" ++ [LF; LF].
Definition added_mid : str := [LF].
Definition added_rest : str := lit "- old item" ++ [LF].

(** A changelog whose [## [Unreleased]] heading is the last line, without
    newline. *)
Definition unterminated_doc : str :=
  lit "# Changelog" ++ [LF; LF] ++ UNRELEASED.

(** The texts of the PR, of an entry and of a file can be encoded. *)
Definition ctx_encodable (ctx : pr_context) : bool :=
  encodable (author ctx) && encodable (title ctx)
  && encodable (scope_guess ctx).

Definition entry_encodable (p : entry) : bool :=
  encodable (get_str (category p) [])
  && encodable (get_str (summary p) [])
  && encodable (get_str (scope p) [])
  && encodable (get_str (migration p) [])
  && forallb encodable (match references p with Some l => l | None => [] end).

Definition file_encodable (disk : option str) : bool :=
  match disk with Some t => encodable t | None => true end.

(** [### cat] stands on a line of its own somewhere in the text. *)
Definition has_heading_line (cat text : str) : bool :=
  startswith (section_header cat) text
  || contains (LF :: section_header cat) text.

(** An [#### Added] line above the [### Added] section. *)
Definition level4_doc : str :=
  lit "# Changelog" ++ [LF; LF]
  ++ UNRELEASED ++ [LF; LF]
  ++ lit "#### Added" ++ [LF]
  ++ lit "- sub item" ++ [LF; LF]
  ++ lit "### Added" ++ [LF]
  ++ lit "- old item" ++ [LF].

(** An [### Added] section in a changelog without [## [Unreleased]]. *)
Definition headless_doc : str :=
  lit "# Changelog" ++ [LF; LF]
  ++ lit "### Added" ++ [LF]
  ++ lit "- old item" ++ [LF].

(** The document of [prepend_and_frame]'s example with CRLF line ends. *)
Definition crlf_doc : str :=
  lit "# Changelog" ++ [CR; LF; CR; LF]
  ++ UNRELEASED ++ [CR; LF; CR; LF]
  ++ lit "### Added" ++ [CR; LF]
  ++ lit "- old item" ++ [CR; LF].

(** A heading line longer than [## [Unreleased]], then an [#### Added]
    line. *)
Definition next_doc : str :=
  UNRELEASED ++ lit " (next)" ++ [LF; LF]
  ++ lit "#### Added" ++ [LF]
  ++ lit "- x" ++ [LF].

(** The skeleton with CRLF line ends. *)
Definition crlf_skeleton : str :=
  lit "# Changelog" ++ [CR; LF; CR; LF] ++ UNRELEASED ++ [CR; LF; CR; LF].

(** An entry whose summary is a lone surrogate, as [json.loads] returns it
    for the escape [\ud800]. *)
Definition surrogate_entry : entry :=
  {| category := Some (lit "Added");
     summary := Some [55296%N];
     scope := None;
     breaking := Some false;
     migration := None;
     references := Some [] |}.

End GenChangelog.

(** ** [scripts/update_agents.py] *)

Module UpdateAgents.

Definition ensure_always_include_block (text required : str) : str :=
  if negb (truthy (strip required)) then text
  else if contains (strip required) text then text
  else
    (* Append a small section at the end *)
    let sep := if endswith [LF] text then [LF; LF] else [LF; LF] in
    text ++ sep ++ strip required ++ [LF].

(** Blank lines between the content and the [block] that, with its final
    newline, ends [result]: the newlines before the block, less the one that
    ends the last line of the content. *)
Definition blank_lines_before (block result : str) : nat :=
  let pre := firstn (length result - (length block + 1)) result in
  let k := trailing_newlines pre in
  if k =? length pre then k else k - 1.

(** A JSON value as [str()] sees it: a string, or another value kept with
    the text [str()] renders for it. *)
Inductive json :=
| JString (s : str)
| JOther (shown : str).

Definition py_str (v : json) : str :=
  match v with
  | JString s => s
  | JOther shown => shown
  end.

(** The entries of a parsed object under the two keys the code reads. *)
Record agents_update := {
  updated_content : option json;
  summary : option json
}.

(** Outcome of [responses.create] and [json.loads]: an exception, or the
    parsed value, a dict or not. *)
Inductive generation :=
| Raises
| NotADict
| Dict (d : agents_update).

Definition NOTICE : str := lit "No LLM changes; enforced required block.".

(** [llm_update]: the target file ([None]: absent) and the generator's
    outcome to the pair [(content, summary)]. *)
Definition llm_update (ALWAYS_INCLUDE : str) (disk : option str)
    (g : generation) : str * str :=
  let current := match disk with Some t => t | None => [] end in
  let '(content, summary) :=
    match g with
    | Dict d =>
        match updated_content d with
        | Some v =>
            (py_str v,
             py_str (match summary d with Some s => s | None => JString [] end))
        | None =>
            (* KeyError, raised inside the try *)
            (current, NOTICE)
        end
    | NotADict => ([], [])
    | Raises =>
        (* Fallback: keep current content, just enforce ALWAYS_INCLUDE *)
        (current, NOTICE)
    end in
  (ensure_always_include_block
     (if truthy content then content else current) ALWAYS_INCLUDE,
   summary).

(** An instance of [Exception], with the text [str(e)] gives. *)
Record exn := { message : str }.

(** What the call [main()] does: return, or raise. *)
Inductive main_outcome :=
| MainReturns
| MainRaises (e : exn).

(** How the process ends: [sys.exit(code)], an exception leaving the
    script, or the end of the script. *)
Inductive ending :=
| Exit (code : Z)
| Propagates (e : exn)
| Finishes.

Definition REQUIRED_KEYS : list string :=
  ["REPO"; "PR_NUMBER"; "GITHUB_TOKEN"; "OPENAI_API_KEY"]%string.

Definition all_set (getenv : string -> option str) : bool :=
  forallb (fun key => match getenv key with
                      | Some v => truthy v
                      | None => false
                      end) REQUIRED_KEYS.

Definition unset (getenv : string -> option str) (key : string) : bool :=
  match getenv key with
  | Some v => negb (truthy v)
  | None => true
  end.

(** The [__main__] block (lines 259-271): the lines printed to [stderr] and
    the ending.  The block is reached once the module-level lines have run;
    [script] below composes the two. *)
Definition entry_point (getenv : string -> option str) (MODE : str)
    (main : main_outcome) : list str * ending :=
  match List.find (unset getenv) REQUIRED_KEYS with
  | Some key => ([lit "Missing required env var: " ++ lit key], Exit 2)
  | None =>
      match main with
      | MainReturns => ([], Finishes)
      | MainRaises e =>
          ([lit "update_agents.py failed: " ++ message e],
           (* Do not crash the job in suggest mode *)
           if str_eqb MODE (lit "apply") then Propagates e else Finishes)
      end
  end.

(** *** The module-level lines 12-35, which run before the [__main__] block

    [os.environ[key]] raises [KeyError] for a missing key; unpacking
    [REPO.split("/")] into two names and [int] raise [ValueError]; reading
    the always-include file may raise. *)
Inductive import_error :=
| KeyError (key : string)
| ValueError (key : string)
| IncludeFileFails (e : exn).

(** The process as a whole: it ends in the module-level lines, or reaches
    the [__main__] block, which prints to [stderr] and ends. *)
Inductive process_end :=
| ImportFails (e : import_error)
| Runs (stderr : list str) (e : ending).

Section Startup.

(** [int(s)], [None] when it raises [ValueError]; [str.lower]; and the file
    named by [AGENTS_ALWAYS_INCLUDE_FILE]: absent, or what [read_text]
    raises or returns. *)
Variable py_int : str -> option Z.
Variable lower : str -> str.
Variable include_file : str -> option (exn + str).

Variable getenv : string -> option str.

(** [os.getenv(key, default)] *)
Definition getenv_or (key : string) (default : str) : str :=
  match getenv key with Some v => v | None => default end.

(** [MODE] and [ALWAYS_INCLUDE] as the module-level lines leave them. *)
Definition module_level : import_error + (str * str) :=
  match getenv "REPO" with
  | None => inl (KeyError "REPO")
  | Some REPO =>
      if negb (length (split_on 47%N REPO) =? 2)
      then inl (ValueError "REPO")
      else
        match getenv "PR_NUMBER" with
        | None => inl (KeyError "PR_NUMBER")
        | Some n =>
            match py_int n with
            | None => inl (ValueError "PR_NUMBER")
            | Some _ =>
                match getenv "GITHUB_TOKEN" with
                | None => inl (KeyError "GITHUB_TOKEN")
                | Some _ =>
                    let MODE :=
                      lower (strip (getenv_or "AGENTS_MODE" (lit "suggest"))) in
                    let ALWAYS_INCLUDE :=
                      strip (getenv_or "AGENTS_ALWAYS_INCLUDE" (lit "xyz")) in
                    let ALWAYS_INCLUDE_FILE :=
                      strip (getenv_or "AGENTS_ALWAYS_INCLUDE_FILE" []) in
                    if truthy ALWAYS_INCLUDE_FILE
                    then match include_file ALWAYS_INCLUDE_FILE with
                         | None => inr (MODE, ALWAYS_INCLUDE)
                         | Some (inl e) => inl (IncludeFileFails e)
                         | Some (inr text) => inr (MODE, text)
                         end
                    else inr (MODE, ALWAYS_INCLUDE)
                end
            end
        end
  end.

(** The script run as a program; [main] is what [main()] does under the
    module's [MODE] and [ALWAYS_INCLUDE]. *)
Definition script (main : str -> str -> main_outcome) : process_end :=
  match module_level with
  | inl e => ImportFails e
  | inr (MODE, ALWAYS_INCLUDE) =>
      let r := entry_point getenv MODE (main MODE ALWAYS_INCLUDE) in
      Runs (fst r) (snd r)
  end.

End Startup.

Definition missing (key : string) : str :=
  lit "Missing required env var: " ++ lit key.

(** Inputs the facts below are tried on. *)
Definition sample_int (s : str) : option Z :=
  match s with [] => None | _ :: _ => Some 1%Z end.
Definition no_include_file (name : str) : option (exn + str) := None.
Definition env_empty_token (key : string) : option str :=
  if String.eqb key "REPO" then Some (lit "org/name")
  else if String.eqb key "PR_NUMBER" then Some (lit "7")
  else if String.eqb key "GITHUB_TOKEN" then Some []
  else None.
Definition env_no_repo (key : string) : option str :=
  if String.eqb key "REPO" then None else Some (lit "x").
Definition sample_env : string -> option str := fun _ => Some (lit "x").
Definition boom : exn := {| message := lit "boom" |}.
Definition block_xyz : str := lit " xyz" ++ [LF].
Definition agents_open : str := lit "# Agents" ++ [LF] ++ lit "Be brief.".
Definition agents_closed : str := lit "# Agents" ++ [LF].
Definition agents_with_block : str :=
  lit "# Agents" ++ [LF; LF] ++ lit "xyz" ++ [LF].
Definition agents_with_two_blocks : str :=
  lit "xyz" ++ [LF; LF] ++ lit "xyz" ++ [LF].
Definition block_with_blank_lines : str := lit "xyz" ++ [LF; LF].

End UpdateAgents.

(** ** The context collector of both scripts *)

Module Collect.

(** An entry of the PR's file list, with the keys the scripts read. *)
Record changed_file := {
  status : str;
  filename : str;
  additions : Z;
  deletions : Z
}.

(** One element of [out]:
    [f"{f['status']} {f['filename']} (+{f['additions']}/-{f['deletions']})"]. *)
Definition file_line (f : changed_file) : str :=
  status f ++ lit " " ++ filename f
  ++ lit " (+" ++ int_str (additions f)
  ++ lit "/-" ++ int_str (deletions f) ++ lit ")".

Definition more_line (k : nat) : str :=
  lit "... and " ++ int_str (Z.of_nat k) ++ lit " more".

(** The list [out] of [summarize_files] before it is joined. *)
Definition summary_out (fs : list changed_file) (cap : nat) : list str :=
  map file_line (firstn cap fs)
  ++ (if cap <? length fs then [more_line (length fs - cap)] else []).

Definition summarize_files (fs : list changed_file) (cap : nat) : str :=
  join [LF] (summary_out fs cap).

(** The defaults of [cap] in [gen_changelog.py] and [update_agents.py]. *)
Definition CHANGELOG_CAP : nat := 25.
Definition AGENTS_CAP : nat := 50.

Definition SLASH : char := 47%N.

(** ["/" in p] *)
Definition has_slash (p : str) : bool := existsb (char_eqb SLASH) p.

(** [p.split("/")[0]] *)
Fixpoint before_slash (p : str) : str :=
  match p with
  | [] => []
  | c :: p' => if char_eqb c SLASH then [] else c :: before_slash p'
  end.

Definition changed (files : list changed_file) : list str :=
  map filename files.

Definition top_dirs (changed : list str) : list str :=
  map before_slash (filter has_slash changed).

(** [l.count(x)] on a list of strings. *)
Definition occurrences (l : list str) (x : str) : nat :=
  length (filter (str_eqb x) l).

(** [max(first, *rest, key=key)]: the first of the elements with the
    largest key. *)
Fixpoint max_by (key : str -> nat) (best : str) (rest : list str) : str :=
  match rest with
  | [] => best
  | x :: rest' =>
      if key best <? key x then max_by key x rest' else max_by key best rest'
  end.

(** [scope_guess], with [order] the order in which [set(top_dirs)] is
    iterated; [max] of no element raises and is not reached. *)
Definition scope_guess (order : list str) (changed : list str) : str :=
  match top_dirs changed with
  | [] => []
  | _ :: _ =>
      match order with
      | x :: rest => max_by (occurrences (top_dirs changed)) x rest
      | [] => []
      end
  end.

(** [order] lists the elements of [set(l)]. *)
Definition iterates (order l : list str) : Prop :=
  forall x, In x order <-> In x l.

End Collect.

(** ** Notions used to state further facts about the changelog merge *)

Module ChangelogNotions.

Import GenChangelog.

(** [s] is [t] with characters taken out: the characters of [s] occur in
    [t] in the same order. *)
Inductive subseq : str -> str -> Prop :=
| subseq_nil : subseq [] []
| subseq_keep (c : char) (s t : str) : subseq s t -> subseq (c :: s) (c :: t)
| subseq_skip (c : char) (s t : str) : subseq s t -> subseq s (c :: t).

(** The characters with which [str(n)] of an [int] can start. *)
Definition starts_number (c : char) : bool :=
  ((c =? 45) || (48 <=? c) && (c <=? 57))%N.

(** No ["#"] of the text is followed by a digit or a minus sign. *)
Fixpoint no_reference (text : str) : bool :=
  match text with
  | [] => true
  | c :: text' =>
      match text' with
      | d :: _ => negb (char_eqb c 35%N && starts_number d)
      | [] => true
      end && no_reference text'
  end.

(** The skeleton before its [## [Unreleased]] line. *)
Definition skeleton_preamble : str :=
  lit "# Changelog" ++ [LF; LF]
  ++ lit "All notable changes to this project will be documented in this file."
  ++ [LF; LF]
  ++ lit "The format is based on [Keep a Changelog](https://keepachangelog.com/en/1.1.0/), "
  ++ lit "and this project adheres to [Semantic Versioning](https://semver.org/spec/v2.0.0.html)."
  ++ [LF; LF].

(** Inputs the facts below are tried on. *)
Definition two_release_doc : str :=
  lit "# Changelog" ++ [LF; LF]
  ++ UNRELEASED ++ [LF; LF]
  ++ lit "## [1.0.0]" ++ [LF; LF]
  ++ lit "### Fixed" ++ [LF]
  ++ lit " - Fix crash (#42, @bob)" ++ [LF].

Definition changed_paths : list str :=
  [lit "src/a.py"; lit "docs/x.md"; lit "src/b.py"; lit "README.md"].

Definition changed_order : list str := [lit "docs"; lit "src"].

End ChangelogNotions.

(** ** [scripts/update_agents.py]: targets and [main] *)

Module AgentsPipeline.

Import Collect UpdateAgents.

(** A resolved absolute path: its segments below the filesystem root. *)
Definition path := list str.

Fixpoint path_eqb (a b : path) : bool :=
  match a, b with
  | [], [] => true
  | x :: a', y :: b' => str_eqb x y && path_eqb a' b'
  | _, _ => false
  end.

(** [d / name], [p.parent] and [list(p.parents)] (nearest first). *)
Definition child (d : path) (name : str) : path := d ++ [name].
Definition parent (p : path) : path := removelast p.
Definition parents (p : path) : list path :=
  map (fun k => firstn k p) (rev (seq 0 (length p))).

Definition AGENTS_MD : str := lit "AGENTS.md".

(** What a path names: a file with its text, or a directory. *)
Inductive node :=
| File (content : str)
| Dir.

Definition filesystem := path -> option node.

Definition exists_ (fs : filesystem) (p : path) : bool :=
  match fs p with Some _ => true | None => false end.

Definition is_dir (fs : filesystem) (p : path) : bool :=
  match fs p with Some Dir => true | _ => false end.

(** A dict from paths to lists, in insertion order. *)
Definition mapping := list (path * list str).

(** [m.setdefault(k, []).append(v)] *)
Fixpoint setdefault_append (m : mapping) (k : path) (v : str) : mapping :=
  match m with
  | [] => [(k, [v])]
  | (k', l) :: m' =>
      if path_eqb k k' then (k', l ++ [v]) :: m'
      else (k', l) :: setdefault_append m' k v
  end.

Section Targets.

(** [root], and what [resolve()] gives for [root / rel] and for
    [root / pathlib.Path(rel).parent]: the file system's answer. *)
Variable root : path.
Variable resolve_in_root : str -> path.
Variable resolve_parent_in_root : str -> path.
Variable fs : filesystem.

(** The chain [dirs] of a changed path, nearest first. *)
Definition dirs_of (rel : str) : list path :=
  let abs_path := resolve_in_root rel in
  let abs_path :=
    if exists_ fs abs_path then abs_path else resolve_parent_in_root rel in
  let cur := if is_dir fs abs_path then abs_path else parent abs_path in
  cur :: parents cur.

(** The loop over [dirs], with [mapping] and [found_any]. *)
Fixpoint visit_dirs (rel : str) (dirs : list path) (m : mapping)
    (found_any : bool) : mapping * bool :=
  match dirs with
  | [] => (m, found_any)
  | d :: dirs' =>
      let candidate := child d AGENTS_MD in
      if exists_ fs candidate
      then visit_dirs rel dirs' (setdefault_append m candidate rel) true
      else visit_dirs rel dirs' m found_any
  end.

(** The body of the loop over [changed]. *)
Definition visit_file (m : mapping) (rel : str) : mapping :=
  let '(m', found_any) := visit_dirs rel (dirs_of rel) m false in
  if found_any then m'
  else setdefault_append m' (child root AGENTS_MD) rel.

Definition map_changed_paths_to_agents (files : list changed_file)
  : mapping :=
  fold_left visit_file (changed files) [].

(** The [AGENTS.md] files a changed path is attached to: those that exist
    along its chain, or the root's when there is none. *)
Definition targets (rel : str) : list path :=
  match filter (exists_ fs) (map (fun d => child d AGENTS_MD) (dirs_of rel))
  with
  | [] => [child root AGENTS_MD]
  | found => found
  end.

End Targets.

Definition keys (m : mapping) : list path := map fst m.

(** The [AGENTS.md] files that exist in the directories [dirs]. *)
Definition candidates (fs : filesystem) (dirs : list path) : list path :=
  filter (exists_ fs) (map (fun d => child d AGENTS_MD) dirs).

(** The shape of a dict built by [setdefault] and [append]: distinct keys,
    no empty list. *)
Definition well_kept (m : mapping) : Prop :=
  NoDup (keys m) /\ Forall (fun kv => snd kv <> []) m.

(** [key] is a key of [m] and [rel] is in its list. *)
Definition attached (m : mapping) (key : path) (rel : str) : Prop :=
  exists l, In (key, l) m /\ In rel l.

(** *** [main] *)

(** The state [main] acts on: the files, the lines printed, and the
    comments that reached the PR (oldest first). *)
Record world := {
  disk : filesystem;
  stdout : list str;
  posted : list str
}.

(** An element of [report]. *)
Record report_entry := {
  report_file : str;
  report_changed : bool;
  report_summary : str
}.

Definition REPORT_NAME : str := lit ".agents_update_report.json".
Definition SENTINEL_NAME : str := lit ".agents_updates_applied".

Definition write (fs : filesystem) (p : path) (n : node) : filesystem :=
  fun q => if path_eqb q p then Some n else fs q.

Definition with_disk (w : world) (fs : filesystem) : world :=
  {| disk := fs; stdout := stdout w; posted := posted w |}.

Definition print (w : world) (line : str) : world :=
  {| disk := disk w; stdout := stdout w ++ [line]; posted := posted w |}.

Section Main.

Variable root : path.
Variable resolve_in_root : str -> path.
Variable resolve_parent_in_root : str -> path.

(** The module constants [MODE] and [ALWAYS_INCLUDE]. *)
Variable MODE : str.
Variable ALWAYS_INCLUDE : str.

(** What lies outside the script: the outcome of the generator call for a
    target, whether posting a comment raises, the [OSError] an operation on
    a path fails with, the [ValueError] of [relative_to], and
    [json.dumps(report, indent=2)]. *)
Variable reply : path -> generation.
Variable post_raises : str -> bool.
Variable os_error : path -> exn.
Variable not_relative : path -> exn.
Variable json_dumps : list report_entry -> str.

(** [d.mkdir(parents=True, exist_ok=True)], on the reversed path: a
    directory is kept, a file in the way is an error, and what is missing is
    created from the nearest existing ancestor down. *)
Fixpoint mkdir_rev (fs : filesystem) (rd : list str)
  : exn + filesystem :=
  match fs (rev rd) with
  | Some Dir => inr fs
  | Some (File _) => inl (os_error (rev rd))
  | None =>
      match rd with
      | [] => inl (os_error [])
      | _ :: rd' =>
          match fs (rev rd') with
          | Some (File _) => inl (os_error (rev rd))
          | _ =>
              match mkdir_rev fs rd' with
              | inl e => inl e
              | inr fs' => inr (write fs' (rev rd) Dir)
              end
          end
      end
  end.

Definition mkdir_parents (fs : filesystem) (d : path) : exn + filesystem :=
  mkdir_rev fs (rev d).

(** [p.write_text(content)]: the directory of [p] must be there and [p] no
    directory.  A file node holds the text [read_text] returns for the
    file; the contents written here are taken as texts that can be encoded
    and that hold no [\r]. *)
Definition write_text (fs : filesystem) (p : path) (content : str)
  : exn + filesystem :=
  if is_dir fs p then inl (os_error p)
  else if is_dir fs (parent p) then inr (write fs p (File content))
  else inl (os_error p).

(** [p.read_text() if p.exists() else ""], as the content or its absence. *)
Definition read_if_exists (fs : filesystem) (p : path)
  : exn + option str :=
  match fs p with
  | Some Dir => inl (os_error p)
  | Some (File c) => inr (Some c)
  | None => inr None
  end.

(** [str(p.relative_to(root))] *)
Definition relative_to_root (p : path) : exn + str :=
  if path_eqb (firstn (length root) p) root
  then inr (match skipn (length root) p with
            | [] => lit "."
            | segments => join (lit "/") segments
            end)
  else inl (not_relative p).

(** [post_pr_comment] inside [try ... except Exception: pass]. *)
Definition try_post (w : world) (body : str) : world :=
  if post_raises body then w
  else {| disk := disk w; stdout := stdout w; posted := posted w ++ [body] |}.

Definition suggestion (rel updated_content rationale : str) : str :=
  lit "Proposed update to `" ++ rel ++ lit "`"
  ++ [LF; LF] ++ lit "Reasoning: "
  ++ (if truthy rationale then rationale
      else lit "Proposed AGENTS.md refresh.")
  ++ [LF; LF] ++ lit "New file content preview:" ++ [LF; LF]
  ++ lit "```markdown" ++ [LF] ++ updated_content ++ [LF] ++ lit "```".

Definition notice (rel rationale : str) : str :=
  lit "Applied AGENTS.md update for `" ++ rel ++ lit "`. " ++ rationale.

(** The loop's variables after an iteration, or the exception that left
    it. *)
Definition progress : Type := exn + (bool * list report_entry).

(** The body of the loop over [mapping.items()]. *)
Definition step (w : world) (any_applied : bool)
    (report : list report_entry) (agents_path : path) : world * progress :=
  match read_if_exists (disk w) agents_path with
  | inl e => (w, inl e)
  | inr on_disk =>
      let '(updated_content, rationale) :=
        llm_update ALWAYS_INCLUDE on_disk (reply agents_path) in
      let current := match on_disk with Some c => c | None => [] end in
      if str_eqb (strip updated_content) (strip current)
      then
        match relative_to_root agents_path with
        | inl e => (w, inl e)
        | inr rel =>
            (w, inr (any_applied,
                     report
                     ++ [{| report_file := rel;
                            report_changed := false;
                            report_summary :=
                              if truthy rationale then rationale
                              else lit "No changes" |}]))
        end
      else
        match relative_to_root agents_path with
        | inl e => (w, inl e)
        | inr rel =>
            let entry := {| report_file := rel;
                            report_changed := true;
                            report_summary := rationale |} in
            (* Apply or only suggest *)
            if str_eqb MODE (lit "apply")
            then
              match mkdir_parents (disk w) (parent agents_path) with
              | inl e => (w, inl e)
              | inr fs1 =>
                  match write_text fs1 agents_path updated_content with
                  | inl e => (with_disk w fs1, inl e)
                  | inr fs2 =>
                      (try_post (with_disk w fs2) (notice rel rationale),
                       inr (true, report ++ [entry]))
                  end
              end
            else
              (try_post w (suggestion rel updated_content rationale),
               inr (any_applied, report ++ [entry]))
        end
  end.

Fixpoint loop (items : mapping) (w : world) (any_applied : bool)
    (report : list report_entry) : world * progress :=
  match items with
  | [] => (w, inr (any_applied, report))
  | (agents_path, _) :: items' =>
      match step w any_applied report agents_path with
      | (w', inl e) => (w', inl e)
      | (w', inr (any_applied', report')) =>
          loop items' w' any_applied' report'
      end
  end.

(** [main], from the result of [fetch_pr_context()] (the file list, or the
    exception it raised). *)
Definition main (fetched : exn + list changed_file) (w : world)
  : world * main_outcome :=
  match fetched with
  | inl e => (w, MainRaises e)
  | inr [] =>
      (print w (lit "No changed files in PR; nothing to do."), MainReturns)
  | inr files =>
      match map_changed_paths_to_agents root resolve_in_root
              resolve_parent_in_root (disk w) files with
      | [] => (print w (lit "No AGENTS.md targets detected."), MainReturns)
      | items =>
          match loop items w false [] with
          | (w1, inl e) => (w1, MainRaises e)
          | (w1, inr (any_applied, report)) =>
              match write_text (disk w1) (child root REPORT_NAME)
                      (json_dumps report) with
              | inl e => (w1, MainRaises e)
              | inr fs2 =>
                  if any_applied
                  then
                    match write_text fs2 (child root SENTINEL_NAME)
                            (lit "1") with
                    | inl e => (with_disk w1 fs2, MainRaises e)
                    | inr fs3 => (with_disk w1 fs3, MainReturns)
                    end
                  else (with_disk w1 fs2, MainReturns)
              end
          end
      end
  end.

(** What one iteration does. *)
Definition step_result (w : world) (a : bool) (r : list report_entry)
    (key : path) (w' : world) (res : progress) : Prop :=
  stdout w' = stdout w
  /\ (str_eqb MODE (lit "apply") = false -> disk w' = disk w)
  /\ (forall q, q <> key ->
        disk w' q = disk w q \/ (disk w q = None /\ disk w' q = Some Dir))
  /\ match res with
     | inl _ => True
     | inr (a', r') =>
         exists e,
           r' = r ++ [e]
           /\ relative_to_root key = inr (report_file e)
           /\ a' = a || (report_changed e && str_eqb MODE (lit "apply"))
           /\ (report_changed e = false -> disk w' = disk w)
           /\ (report_changed e = true ->
               str_eqb MODE (lit "apply") = true ->
               exists c, disk w' key = Some (File c)
                         /\ contains (strip ALWAYS_INCLUDE) c = true)
     end.

(** What makes a report entry the entry of a target, in the files [fs]
    left by the run. *)
Definition entry_of (fs : filesystem) (kv : path * list str)
    (e : report_entry) : Prop :=
  relative_to_root (fst kv) = inr (report_file e)
  /\ (report_changed e = true ->
      str_eqb MODE (lit "apply") = true ->
      exists c, fs (fst kv) = Some (File c)
                /\ contains (strip ALWAYS_INCLUDE) c = true).

(** What the whole loop does. *)
Definition loop_result (items : mapping) (w : world) (a : bool)
    (r : list report_entry) (w' : world) (res : progress) : Prop :=
  stdout w' = stdout w
  /\ (str_eqb MODE (lit "apply") = false -> disk w' = disk w)
  /\ (forall q, ~ In q (keys items) ->
        disk w' q = disk w q \/ (disk w q = None /\ disk w' q = Some Dir))
  /\ match res with
     | inl _ => True
     | inr (a', r') =>
         exists es,
           r' = r ++ es
           /\ Forall2 (entry_of (disk w')) items es
           /\ a' = a || (existsb report_changed es
                         && str_eqb MODE (lit "apply"))
           /\ (existsb report_changed es = false -> disk w' = disk w)
     end.

End Main.

End AgentsPipeline.

(** ** Notions used to state further facts about [llm_update] *)

Module AgentsNotions.

Import UpdateAgents.

(** The generator gave nothing to use as content: it raised, the reply is
    no object, the key [updated_content] is missing, or its value renders
    as the empty string. *)
Definition unusable (g : generation) : bool :=
  match g with
  | Raises => true
  | NotADict => true
  | Dict d =>
      match updated_content d with
      | None => true
      | Some v => negb (truthy (py_str v))
      end
  end.

End AgentsNotions.

(** ** A small repository the facts about [main] are tried on *)

Module Samples.

Import Collect UpdateAgents AgentsPipeline.

Definition repo : path := [lit "repo"].
Definition repo_src : path := [lit "repo"; lit "src"].
Definition repo_src_a : path := [lit "repo"; lit "src"; lit "a.py"].
Definition repo_agents : path := [lit "repo"; AGENTS_MD].

(** [repo/] with [AGENTS.md] and [src/a.py]; the [AGENTS.md] holds
    [content]. *)
Definition sample_fs (content : str) : filesystem :=
  fun p =>
    if path_eqb p repo then Some Dir
    else if path_eqb p repo_src then Some Dir
    else if path_eqb p repo_src_a then Some (File (lit "print(1)"))
    else if path_eqb p repo_agents then Some (File content)
    else None.

Definition sample_world (content : str) : world :=
  {| disk := sample_fs content; stdout := []; posted := [] |}.

Definition sample_files : list changed_file :=
  [{| status := lit "modified"; filename := lit "src/a.py";
      additions := 1; deletions := 0 |}].

Definition sample_resolve (rel : str) : path := repo_src_a.
Definition sample_resolve_parent (rel : str) : path := repo_src.
Definition sample_reply (p : path) : generation := Raises.
Definition sample_error (p : path) : exn := boom.
Definition sample_dumps (r : list report_entry) : str :=
  join [LF] (map report_file r).
Definition never_raises (body : str) : bool := false.

(** [main] on the sample, with the root and the mode left open. *)
Definition sample_main (root : path) (MODE : str) (content : str)
  : world * main_outcome :=
  main root sample_resolve sample_resolve_parent MODE block_xyz
    sample_reply never_raises sample_error sample_error sample_dumps
    (inr sample_files) (sample_world content).

Definition sample_mapping (root : path) (content : str) : mapping :=
  map_changed_paths_to_agents root sample_resolve sample_resolve_parent
    (sample_fs content) sample_files.

End Samples.

(** ** Facts about the string operations *)

Module PyStrFacts.

Lemma char_eqb_eq (a b : char) : char_eqb a b = true <-> a = b.
Proof. apply N.eqb_eq. Qed.

Lemma char_eqb_refl (a : char) : char_eqb a a = true.
Proof. apply N.eqb_refl. Qed.

Lemma startswith_app (p s : str) : startswith p (p ++ s) = true.
Proof.
  induction p as [|x p IH]; simpl; [reflexivity|].
  now rewrite char_eqb_refl.
Qed.

Lemma startswith_split (p s : str) :
  startswith p s = true -> s = p ++ skipn (length p) s.
Proof.
  revert s; induction p as [|x p IH]; intros [|y s]; simpl; try easy.
  intros H; apply andb_true_iff in H as [Hxy Hp].
  apply char_eqb_eq in Hxy; subst y.
  now rewrite <- IH.
Qed.

Lemma startswith_iff (p s : str) :
  startswith p s = true <-> exists r, s = p ++ r.
Proof.
  split.
  - intros H; eexists; now apply startswith_split.
  - intros [r ->]; apply startswith_app.
Qed.

Lemma contains_unfold (sub s : str) :
  contains sub s =
  startswith sub s || match s with [] => false | _ :: s' => contains sub s' end.
Proof. destruct s; reflexivity. Qed.

Lemma contains_iff (sub s : str) :
  contains sub s = true <-> exists a b, s = a ++ sub ++ b.
Proof.
  split.
  - induction s as [|x s IH]; simpl; intros H.
    + rewrite orb_false_r in H.
      apply startswith_iff in H as [r Hr]. now exists [], r.
    + apply orb_true_iff in H as [H|H].
      * apply startswith_iff in H as [r Hr]. now exists [], r.
      * destruct (IH H) as (a & b & ->). now exists (x :: a), b.
  - intros (a & b & ->).
    induction a as [|x a IH]; simpl.
    + now rewrite contains_unfold, startswith_app.
    + now rewrite IH, orb_true_r.
Qed.

Lemma contains_false_tail (sub : str) (x : char) (s : str) :
  contains sub (x :: s) = false ->
  startswith sub (x :: s) = false /\ contains sub s = false.
Proof. simpl; intros H; now apply orb_false_iff in H. Qed.

Lemma contains_find (sub s : str) :
  contains sub s = true <-> exists i, find sub s = Some i.
Proof.
  induction s as [|x s IH]; simpl.
  - rewrite orb_false_r. destruct (startswith sub []); split; try easy.
    + now exists 0.
    + now intros [i Hi].
  - destruct (startswith sub (x :: s)); simpl.
    + split; [now exists 0 | easy].
    + rewrite IH. split; intros [i Hi].
      * exists (S i). now rewrite Hi.
      * destruct (find sub s) as [j|]; [now exists j | easy].
Qed.

(** Where [find] points there is an occurrence. *)
Lemma find_split (sub s : str) (i : nat) :
  find sub s = Some i ->
  s = firstn i s ++ sub ++ skipn (i + length sub) s.
Proof.
  revert i; induction s as [|x s IH]; intros i; simpl.
  - destruct (startswith sub []) eqn:E; [|easy].
    intros [= <-]. now apply startswith_split in E.
  - destruct (startswith sub (x :: s)) eqn:E.
    + intros [= <-]. now apply startswith_split in E.
    + destruct (find sub s) as [j|]; [|easy].
      intros [= <-]; simpl. f_equal. now apply IH.
Qed.

(** [replace] leaves a text without occurrence as it is. *)
Lemma replace_from_absent (old new s : str) :
  contains old s = false -> replace_from old new 0 s = s.
Proof.
  induction s as [|x s IH]; [reflexivity|].
  intros H. apply contains_false_tail in H as [H1 H2].
  cbn [replace_from]. rewrite H1. f_equal. now apply IH.
Qed.

Lemma replace_absent (old new s : str) :
  old <> [] -> contains old s = false -> replace old new s = s.
Proof.
  destruct old as [|c old]; [easy|].
  intros _ H. now apply replace_from_absent.
Qed.

Lemma find_unfold (sub s : str) :
  find sub s =
  if startswith sub s then Some 0
  else match s with [] => None | _ :: s' => option_map S (find sub s') end.
Proof. destruct s; reflexivity. Qed.

(** [find] stops at or before any occurrence. *)
Lemma find_first (sub a b : str) :
  exists i, find sub (a ++ sub ++ b) = Some i /\ i <= length a.
Proof.
  induction a as [|x a (i & Hi & Hle)].
  - exists 0. simpl. now rewrite find_unfold, startswith_app.
  - cbn [app find]. destruct (startswith sub (x :: a ++ sub ++ b)).
    + exists 0. split; [reflexivity | simpl; lia].
    + exists (S i). rewrite Hi. split; [reflexivity | simpl; lia].
Qed.

Lemma skipn_app_le (n : nat) (a b : str) :
  n <= length a -> skipn n (a ++ b) = skipn n a ++ b.
Proof.
  intros H. rewrite skipn_app.
  now replace (n - length a) with 0 by lia.
Qed.

Lemma startswith_app_long (p l x : str) :
  length p <= length l -> startswith p (l ++ x) = startswith p l.
Proof.
  revert l; induction p as [|c p IH]; intros [|d l] H; try reflexivity.
  - simpl in H. lia.
  - cbn [app startswith]. f_equal. apply IH. simpl in H. lia.
Qed.

Lemma startswith_shorter (p x s : str) :
  startswith (p ++ x) s = true -> startswith p s = true.
Proof.
  intros H. apply startswith_iff in H as [r ->].
  rewrite <- app_assoc. apply startswith_app.
Qed.

(** The place of the first occurrence does not depend on what follows it. *)
Lemma find_extension (sub a x y : str) :
  find sub (a ++ sub ++ x) = Some (length a) ->
  find sub (a ++ sub ++ y) = Some (length a).
Proof.
  induction a as [|c a IH]; intros H.
  - simpl. now rewrite find_unfold, startswith_app.
  - cbn [app find length] in *.
    assert (E : forall z, startswith sub (c :: a ++ sub ++ z)
                          = startswith sub (c :: a ++ sub)).
    { intros z. rewrite app_assoc.
      apply (startswith_app_long sub (c :: a ++ sub) z).
      simpl. rewrite length_app. lia. }
    rewrite E in *. destruct (startswith sub (c :: a ++ sub)); [discriminate|].
    destruct (find sub (a ++ sub ++ x)) as [i|]; [|discriminate].
    injection H as ->. now rewrite IH.
Qed.

(** A longer pattern that occurs at the first occurrence of its prefix has
    its own first occurrence there. *)
Lemma find_longer (u x a b : str) :
  find u (a ++ (u ++ x) ++ b) = Some (length a) ->
  find (u ++ x) (a ++ (u ++ x) ++ b) = Some (length a).
Proof.
  induction a as [|c a IH]; intros H.
  - simpl. now rewrite find_unfold, startswith_app.
  - cbn [app find length] in *.
    destruct (startswith u (c :: a ++ (u ++ x) ++ b)) eqn:E; [discriminate|].
    destruct (startswith (u ++ x) (c :: a ++ (u ++ x) ++ b)) eqn:E'.
    { apply startswith_shorter in E'. congruence. }
    destruct (find u (a ++ (u ++ x) ++ b)) as [i|]; [|discriminate].
    injection H as ->. now rewrite IH.
Qed.

Lemma firstn_skipn_app3 (a b : str) :
  firstn (length a) (a ++ b) = a /\ skipn (length a) (a ++ b) = b.
Proof.
  split.
  - rewrite firstn_app, Nat.sub_diag, firstn_all; simpl. apply app_nil_r.
  - rewrite skipn_app, Nat.sub_diag, skipn_all; reflexivity.
Qed.

Lemma replace_from_skip (old new : str) (k : nat) (s : str) :
  replace_from old new k s = replace_from old new 0 (skipn k s).
Proof.
  revert k; induction s as [|x s IH]; intros [|k]; try reflexivity.
  cbn [replace_from skipn]. apply IH.
Qed.

(** [replace] at the first occurrence. *)
Lemma replace_at_first (old new s : str) (i : nat) :
  old <> [] -> find old s = Some i ->
  replace old new s
  = firstn i s ++ new ++ replace old new (skipn (i + length old) s).
Proof.
  intros Ho. destruct old as [|o old]; [easy|]. cbn [replace].
  revert i; induction s as [|x s IH]; intros i.
  - discriminate.
  - cbn [find replace_from]. destruct (startswith (o :: old) (x :: s)).
    + intros [= <-]. rewrite replace_from_skip.
      cbn [length Nat.add Nat.sub skipn firstn app].
      now rewrite Nat.sub_0_r.
    + destruct (find (o :: old) s) as [j|]; [|discriminate].
      intros [= <-]. cbn [Nat.add skipn firstn app]. f_equal. now apply IH.
Qed.

(** *** [sorted(set(...))] *)

Lemma str_eqb_eq (a b : str) : str_eqb a b = true <-> a = b.
Proof.
  revert b; induction a as [|x a IH]; intros [|y b]; simpl; try easy.
  rewrite andb_true_iff, char_eqb_eq, IH.
  split; [now intros [-> ->] | now intros [= -> ->]].
Qed.

Lemma str_ltb_cons (x y : char) (a b : str) :
  str_ltb (x :: a) (y :: b) = true
  <-> (x < y)%N \/ (x = y /\ str_ltb a b = true).
Proof.
  cbn [str_ltb]. rewrite orb_true_iff, andb_true_iff, N.ltb_lt, N.eqb_eq.
  reflexivity.
Qed.

Lemma str_lt_trans (a b c : str) : str_lt a b -> str_lt b c -> str_lt a c.
Proof.
  unfold str_lt. revert b c; induction a as [|x a IH]; intros [|y b] [|z c];
    try easy.
  rewrite !str_ltb_cons. intros [H1|[-> H1]] [H2|[-> H2]].
  - left; lia.
  - now left.
  - now left.
  - right. split; [reflexivity|]. now apply (IH b).
Qed.

Lemma str_lt_total (a b : str) :
  str_ltb a b = false -> str_eqb a b = false -> str_lt b a.
Proof.
  unfold str_lt. revert b; induction a as [|x a IH]; intros [|y b];
    try easy.
  intros H1 H2. apply str_ltb_cons.
  cbn [str_ltb str_eqb] in H1, H2. unfold char_eqb in H2.
  apply orb_false_iff in H1 as [H1 H3].
  apply N.ltb_ge in H1.
  destruct (N.eqb x y) eqn:E.
  - apply N.eqb_eq in E; subst y. right. split; [reflexivity|].
    cbn [andb] in H2, H3. now apply IH.
  - apply N.eqb_neq in E. left. lia.
Qed.

Lemma insert_sorted_In (x y : str) (l : list str) :
  In y (insert_sorted x l) <-> y = x \/ In y l.
Proof.
  induction l as [|z l IH]; simpl.
  - intuition.
  - destruct (str_eqb x z) eqn:E.
    + apply str_eqb_eq in E; subst z. simpl. intuition.
    + destruct (str_ltb x z); simpl; rewrite ?IH; intuition.
Qed.

Lemma insert_sorted_sorted (x : str) (l : list str) :
  StronglySorted str_lt l -> StronglySorted str_lt (insert_sorted x l).
Proof.
  induction 1 as [|z l Hl IH Hz]; simpl.
  - repeat constructor.
  - destruct (str_eqb x z) eqn:E; [now constructor|].
    destruct (str_ltb x z) eqn:L.
    + constructor; [now constructor|].
      constructor; [exact L|].
      apply Forall_forall. intros w Hw.
      apply (str_lt_trans x z w L).
      now apply (proj1 (Forall_forall _ _) Hz).
    + constructor; [exact IH|].
      apply Forall_forall. intros w Hw.
      apply insert_sorted_In in Hw as [->|Hw].
      * apply str_lt_total; [exact L | exact E].
      * now apply (proj1 (Forall_forall _ _) Hz).
Qed.

(** [sorted_set l] lists the elements of [l], each once, in increasing
    order. *)
Lemma sorted_set_sorted (l : list str) : StronglySorted str_lt (sorted_set l).
Proof.
  induction l as [|x l IH]; simpl; [constructor|].
  now apply insert_sorted_sorted.
Qed.

Lemma sorted_set_In (y : str) (l : list str) :
  In y (sorted_set l) <-> In y l.
Proof.
  induction l as [|x l IH]; simpl; [reflexivity|].
  rewrite insert_sorted_In, IH. intuition.
Qed.

(** *** [strip] *)

Lemma lstrip_head (s : str) (c : char) (r : str) :
  lstrip s = c :: r -> is_space c = false.
Proof.
  induction s as [|x s IH]; simpl; [discriminate|].
  destruct (is_space x) eqn:E; [exact IH|].
  now intros [= <- _].
Qed.

Lemma strip_last (s r : str) (c : char) :
  strip s = r ++ [c] -> is_space c = false.
Proof.
  unfold strip, rstrip. intros H.
  apply (f_equal (@rev char)) in H.
  rewrite rev_involutive, rev_app_distr in H.
  exact (lstrip_head _ _ _ H).
Qed.

Lemma strip_last_not_LF (s r : str) (c : char) :
  strip s = r ++ [c] -> c <> LF.
Proof. intros H ->. now apply strip_last in H. Qed.

Lemma trailing_newlines_one (s : str) (c : char) :
  c <> LF -> trailing_newlines (s ++ [c; LF]) = 1.
Proof.
  intros Hc. unfold trailing_newlines.
  rewrite rev_app_distr. cbn.
  destruct (char_eqb c LF) eqn:E; [|reflexivity].
  now apply char_eqb_eq in E.
Qed.

Lemma endswith_LF_false (s : str) :
  s <> [] -> endswith [LF] s = false ->
  exists r c, s = r ++ [c] /\ c <> LF.
Proof.
  intros Hs H. destruct (exists_last Hs) as (r & c & ->).
  exists r, c. split; [reflexivity|]. intros ->.
  unfold endswith in H. rewrite rev_app_distr in H. discriminate.
Qed.

(** *** [count] *)

Lemma count_nonempty (r s : str) :
  r <> [] -> count r s = count_from r 0 s.
Proof. now destruct r. Qed.

Lemma count_from_skip (r : str) (k : nat) (s : str) :
  count_from r k s = count_from r 0 (skipn k s).
Proof.
  revert k; induction s as [|x s IH]; intros [|k]; try reflexivity.
  cbn [count_from skipn]. apply IH.
Qed.

Lemma count_absent (r s : str) :
  contains r s = false -> count_from r 0 s = 0.
Proof.
  induction s as [|x s IH]; [reflexivity|].
  intros H. apply contains_false_tail in H as [H1 H2].
  cbn [count_from]. rewrite H1. now apply IH.
Qed.

Lemma count_find (r s : str) (i : nat) :
  r <> [] -> find r s = Some i ->
  count_from r 0 s = S (count_from r 0 (skipn (i + length r) s)).
Proof.
  intros Hr. revert i; induction s as [|x s IH]; intros i.
  - destruct r; [easy | discriminate].
  - cbn [find count_from]. destruct (startswith r (x :: s)).
    + intros [= <-]. rewrite count_from_skip.
      destruct r as [|y r]; [easy|].
      cbn [length Nat.add Nat.sub skipn]. now rewrite Nat.sub_0_r.
    + destruct (find r s) as [j|]; [|discriminate].
      intros [= <-]. cbn [Nat.add skipn]. now apply IH.
Qed.

Lemma count_present (r s : str) :
  r <> [] -> contains r s = true -> 1 <= count r s.
Proof.
  intros Hr H. apply contains_find in H as [i Hi].
  rewrite (count_nonempty _ _ Hr), (count_find _ _ _ Hr Hi). lia.
Qed.

Lemma contains_length (r s : str) :
  contains r s = true -> length r <= length s.
Proof.
  intros H. apply contains_iff in H as (a & b & ->).
  rewrite !length_app. lia.
Qed.

(** A text of the length of [r] holds [r] only by being [r]. *)
Lemma contains_same_length (r s : str) :
  contains r s = true -> length s <= length r -> s = r.
Proof.
  intros H Hl. apply contains_iff in H as (a & b & ->).
  rewrite !length_app in Hl.
  destruct a; [|simpl in Hl; lia].
  destruct b; [|simpl in Hl; lia].
  simpl. apply app_nil_r.
Qed.

(** One copy of [r], ending in a character that is not a newline, appended
    to a text without [r]: the result holds it once. *)
Lemma count_appended (text r' : str) (c : char) :
  let r := r' ++ [c] in
  c <> LF -> contains r text = false ->
  count r (text ++ [LF; LF] ++ r ++ [LF]) = 1.
Proof.
  intros r Hc Habs.
  assert (Hr : r <> []) by (unfold r; now destruct r').
  set (R := text ++ [LF; LF] ++ r ++ [LF]).
  destruct (find_first r (text ++ [LF; LF]) [LF]) as (i & Hi & _).
  replace ((text ++ [LF; LF]) ++ r ++ [LF]) with R in Hi
    by (unfold R; now rewrite <- app_assoc).
  rewrite (count_nonempty _ _ Hr), (count_find _ _ _ Hr Hi). f_equal.
  apply count_absent.
  destruct (contains r (skipn (i + length r) R)) eqn:E; [exfalso|reflexivity].
  pose proof (find_split _ _ _ Hi) as HR.
  assert (HlenR : length R = length text + 3 + length r).
  { unfold R. rewrite !length_app. simpl. lia. }
  assert (Hlr : length r = S (length r')).
  { unfold r. rewrite length_app. simpl. lia. }
  assert (Hi' : i + length r <= length R).
  { pose proof (contains_length _ _ E) as HE.
    rewrite length_skipn in HE. lia. }
  assert (HP : length (firstn i R) = i) by (apply firstn_length_le; lia).
  (* the character of [R] where the first occurrence ends *)
  assert (Hnth : nth (i + length r') R LF = c).
  { rewrite HR. unfold r at 1. rewrite <- app_assoc, app_assoc. cbn [app].
    replace (i + length r') with (length (firstn i R ++ r'))
      by (rewrite length_app; lia).
    apply nth_middle. }
  destruct (Nat.lt_ge_cases (i + length r') (length text)) as [Hlt|Hge].
  - (* it ends inside [text] *)
    assert (Hf : firstn (i + length r) text = firstn i R ++ r).
    { transitivity (firstn (i + length r) R).
      - unfold R. rewrite firstn_app.
        replace (i + length r - length text) with 0 by lia.
        simpl. now rewrite app_nil_r.
      - rewrite HR at 1. rewrite app_assoc.
        replace (i + length r) with (length (firstn i R ++ r))
          by (rewrite length_app; lia).
        apply firstn_skipn_app3. }
    assert (contains r text = true); [|congruence].
    apply contains_iff. exists (firstn i R), (skipn (i + length r) text).
    rewrite app_assoc, <- Hf. symmetry. apply firstn_skipn.
  - destruct (Nat.eq_dec (i + length r') (length text)) as [He|Hne].
    { apply Hc. rewrite <- Hnth, He. unfold R. apply nth_middle. }
    destruct (Nat.eq_dec (i + length r') (S (length text))) as [He|Hne'].
    { apply Hc. rewrite <- Hnth, He. unfold R.
      replace (text ++ [LF; LF] ++ r ++ [LF])
        with ((text ++ [LF]) ++ LF :: r ++ [LF])
        by (now rewrite <- app_assoc).
      replace (S (length text)) with (length (text ++ [LF]))
        by (rewrite length_app; simpl; lia).
      apply nth_middle. }
    (* it ends in the appended copy: what follows is too short *)
    assert (HT : skipn (i + length r) R = r).
    { apply contains_same_length; [exact E|].
      rewrite length_skipn. lia. }
    rewrite HT in HR.
    apply Hc.
    assert (HR2 : R = (text ++ [LF; LF] ++ r) ++ [LF]).
    { unfold R. now rewrite <- !app_assoc. }
    rewrite HR2 in HR. unfold r in HR at 4.
    rewrite !app_assoc in HR.
    now apply app_inj_tail in HR as [_ HR].
Qed.

End PyStrFacts.

(** ** Facts about text files *)

Module TextFileFacts.

Import PyStrFacts.

Lemma universal_newlines_cons (c : char) (s : str) :
  c <> CR -> universal_newlines (c :: s) = c :: universal_newlines s.
Proof.
  intros H. cbn [universal_newlines].
  destruct (char_eqb c CR) eqn:E; [|reflexivity].
  now apply char_eqb_eq in E.
Qed.

(** Characters other than [\r] pass through. *)
Lemma universal_newlines_plain (a b : str) :
  Forall (fun c => c <> CR) a ->
  universal_newlines (a ++ b) = a ++ universal_newlines b.
Proof.
  induction 1 as [|c a Hc Ha IH]; [reflexivity|].
  cbn [app]. rewrite (universal_newlines_cons _ _ Hc). now rewrite IH.
Qed.

Lemma absent_char (x : char) (s : str) :
  contains [x] s = false -> Forall (fun c => c <> x) s.
Proof.
  induction s as [|c s IH]; [constructor|].
  rewrite contains_unfold. intros H. apply orb_false_iff in H as [H1 H2].
  constructor; [|now apply IH].
  intros ->. cbn [startswith] in H1. now rewrite char_eqb_refl in H1.
Qed.

(** A text without [\r] is read as it is. *)
Lemma universal_newlines_id (s : str) :
  contains [CR] s = false -> universal_newlines s = s.
Proof.
  intros H. rewrite <- (app_nil_r s) at 1.
  rewrite (universal_newlines_plain s [] (absent_char CR s H)).
  apply app_nil_r.
Qed.

(** The translation distributes over a cut that is not between [\r] and
    [\n]. *)
Lemma universal_newlines_app (a b : str) :
  match b with [] => True | c :: _ => c <> LF end ->
  universal_newlines (a ++ b) = universal_newlines a ++ universal_newlines b.
Proof.
  intros Hb.
  assert (G : forall n a, length a <= n ->
            universal_newlines (a ++ b)
            = universal_newlines a ++ universal_newlines b).
  { clear a. induction n as [|n IH]; intros a Hn.
    - destruct a; [reflexivity | simpl in Hn; lia].
    - destruct a as [|c a]; [reflexivity|]. simpl in Hn.
      cbn [app universal_newlines]. destruct (char_eqb c CR).
      + destruct a as [|d a]; cbn [app].
        * destruct b as [|d b]; [reflexivity|].
          destruct (char_eqb d LF) eqn:E; [|reflexivity].
          now apply char_eqb_eq in E.
        * simpl in Hn. destruct (char_eqb d LF); apply f_equal.
          -- apply IH. lia.
          -- apply (IH (d :: a)). simpl. lia.
      + cbn [app]. apply f_equal, IH. lia. }
  now apply (G (length a)).
Qed.

(** What follows the translation of a text starts as the text does, with
    [\n] for [\r]. *)
Lemma universal_newlines_head (c : char) (s : str) :
  exists s', universal_newlines (c :: s)
             = (if char_eqb c CR then LF else c) :: s'.
Proof.
  cbn [universal_newlines]. destruct (char_eqb c CR); eexists; reflexivity.
Qed.

Lemma encodable_app (a b : str) :
  encodable (a ++ b) = encodable a && encodable b.
Proof. apply forallb_app. Qed.

Lemma encodable_lit (s : string) : encodable (lit s) = true.
Proof.
  induction s as [|a s IH]; [reflexivity|].
  cbn [lit encodable forallb]. fold (encodable (lit s)). rewrite IH, andb_true_r.
  unfold is_surrogate. pose proof (N_ascii_bounded a).
  replace (55296 <=? N_of_ascii a)%N with false; [reflexivity|].
  symmetry. apply N.leb_gt. lia.
Qed.

Lemma encodable_universal_newlines (s : str) :
  encodable s = true -> encodable (universal_newlines s) = true.
Proof.
  assert (G : forall n s, length s <= n -> encodable s = true ->
                          encodable (universal_newlines s) = true).
  { clear s. induction n as [|n IH]; intros s Hn.
    - destruct s; [reflexivity | simpl in Hn; lia].
    - destruct s as [|c s]; [reflexivity|]. simpl in Hn.
      cbn [universal_newlines]. intros H.
      change (encodable (c :: s))
        with (negb (is_surrogate c) && encodable s) in H.
      apply andb_true_iff in H as [Hc Hs].
      destruct (char_eqb c CR).
      + destruct s as [|d s]; [reflexivity|]. simpl in Hn.
        change (encodable (d :: s))
          with (negb (is_surrogate d) && encodable s) in Hs.
        destruct (char_eqb d LF).
        * apply andb_true_iff in Hs as [_ Hs].
          change (encodable (universal_newlines s) = true).
          apply IH; [lia | exact Hs].
        * change (encodable (universal_newlines (d :: s)) = true).
          apply IH; [simpl; lia | exact Hs].
      + change (negb (is_surrogate c) && encodable (universal_newlines s)
                = true).
        rewrite Hc. apply IH; [lia | exact Hs]. }
  apply (G (length s)). lia.
Qed.

(** *** [split] undoes [join] *)

Lemma split_on_plain (c : char) (s : str) :
  Forall (fun x => x <> c) s -> split_on c s = [s].
Proof.
  induction 1 as [|x s Hx Hs IH]; [reflexivity|].
  cbn [split_on]. rewrite IH.
  destruct (char_eqb x c) eqn:E; [|reflexivity].
  now apply char_eqb_eq in E.
Qed.

Lemma split_on_app (c : char) (a s : str) :
  Forall (fun x => x <> c) a ->
  split_on c (a ++ c :: s) = a :: split_on c s.
Proof.
  induction 1 as [|x a Hx Ha IH]; cbn [app split_on].
  - now rewrite char_eqb_refl.
  - rewrite IH. destruct (char_eqb x c) eqn:E; [|reflexivity].
    now apply char_eqb_eq in E.
Qed.

Lemma split_on_join (c : char) (parts : list str) :
  parts <> [] ->
  Forall (Forall (fun x => x <> c)) parts ->
  split_on c (join [c] parts) = parts.
Proof.
  intros Hne H. induction H as [|p parts Hp Hps IH]; [easy|].
  destruct parts as [|q parts].
  - cbn [join]. now apply split_on_plain.
  - change (join [c] (p :: q :: parts)) with (p ++ c :: join [c] (q :: parts)).
    rewrite (split_on_app c p _ Hp). now rewrite IH.
Qed.

End TextFileFacts.

(** ** Facts about the engine *)

Module ReFacts.

Import PyStrFacts.

Section Engine.

Variable unicode_alnum : char -> bool.

Local Abbreviation match_at := (Re.match_at unicode_alnum).
Local Abbreviation search_from := (Re.search_from unicode_alnum).

Lemma match_lazy_unfold (pat : list Re.atom) (prev : option char) (s : str) :
  match_at (Re.AnyLazy :: pat) prev s =
  match match_at pat prev s with
  | Some n => Some n
  | None =>
      match s with
      | [] => None
      | x :: s' => option_map S (match_at (Re.AnyLazy :: pat) (Some x) s')
      end
  end.
Proof. destruct s; reflexivity. Qed.

(** An escaped literal matches exactly where the text starts with it. *)
Lemma match_escape (l : str) (pat : list Re.atom) (prev : option char)
    (s : str) :
  match_at (Re.escape l ++ pat) prev s =
  if startswith l s
  then option_map (Nat.add (length l))
         (match_at pat (Re.last_before prev l) (skipn (length l) s))
  else None.
Proof.
  revert prev s; induction l as [|x l IH]; intros prev s.
  - simpl. now destruct (match_at pat prev s).
  - destruct s as [|y s]; [reflexivity|].
    cbn [Re.escape map app Re.match_at startswith].
    rewrite (eq_sym (N.eqb_sym x y : char_eqb x y = char_eqb y x)).
    destruct (char_eqb x y) eqn:E; [|reflexivity].
    apply char_eqb_eq in E; subst y.
    fold (Re.escape l). rewrite IH. cbn [andb length skipn Re.last_before].
    destruct (startswith l s); [|reflexivity].
    now destruct (match_at pat (Re.last_before (Some x) l) (skipn (length l) s)).
Qed.

Lemma match_escape_end (l : str) (prev : option char) (s : str) :
  match_at (Re.escape l) prev s =
  if startswith l s then Some (length l) else None.
Proof.
  rewrite <- (app_nil_r (Re.escape l)), match_escape.
  destruct (startswith l s); [|reflexivity].
  simpl. now rewrite Nat.add_0_r.
Qed.

(** The lazy run before a literal stops at the literal's first occurrence. *)
Lemma match_lazy_escape (l : str) (prev : option char) (s : str) :
  match_at (Re.AnyLazy :: Re.escape l) prev s =
  option_map (fun i => i + length l) (find l s).
Proof.
  revert prev; induction s as [|x s IH]; intros prev;
    rewrite match_lazy_unfold, match_escape_end; cbn [find].
  - now destruct (startswith l []).
  - destruct (startswith l (x :: s)); [reflexivity|].
    rewrite IH. now destruct (find l s).
Qed.

(** A match somewhere in the text makes the search succeed. *)
Lemma search_from_app (pat : list Re.atom) (s : str) :
  (forall prev, match_at pat prev s <> None) ->
  forall pre prev, search_from pat prev (pre ++ s) <> None.
Proof.
  intros H pre; induction pre as [|x pre IH]; intros prev.
  - simpl. specialize (H prev).
    destruct s; simpl; destruct (match_at pat prev _); easy.
  - cbn [app Re.search_from].
    destruct (match_at pat prev (x :: pre ++ s)); [easy|].
    specialize (IH (Some x)).
    now destruct (search_from pat (Some x) (pre ++ s)).
Qed.

(** No match anywhere makes it fail. *)
Lemma search_from_none (pat : list Re.atom) (s : str) :
  (forall prev i, match_at pat prev (skipn i s) = None) ->
  forall prev, search_from pat prev s = None.
Proof.
  induction s as [|x s IH]; intros H prev.
  - cbn [Re.search_from]. now rewrite (H prev 0 : match_at pat prev [] = None).
  - cbn [Re.search_from]. rewrite (H prev 0 : match_at pat prev (x :: s) = None).
    rewrite IH; [reflexivity|].
    intros q i. apply (H q (S i)).
Qed.

End Engine.

End ReFacts.

(** ** The changelog merge *)

Module ChangelogFacts.

Import GenChangelog PyStrFacts TextFileFacts ReFacts.

Lemma uint_str_last (d : Decimal.uint) (prev : option char) :
  d <> Decimal.Nil ->
  exists c, Re.last_before prev (uint_str d) = Some c
            /\ (48 <= c)%N /\ (c <= 57)%N.
Proof.
  revert prev; induction d as [|d IH|d IH|d IH|d IH|d IH|d IH|d IH|d IH|d IH|d IH];
    intros prev Hd; [easy|..];
    cbn [uint_str Re.last_before];
    (assert (d = Decimal.Nil \/ d <> Decimal.Nil) as [->|Hn]
       by (destruct d; [left | right ..]; easy);
     [ eexists; split; [reflexivity | lia] | now apply IH ]).
Qed.

Lemma int_str_last (z : Z) (prev : option char) :
  exists c, Re.last_before prev (int_str z) = Some c
            /\ (48 <= c)%N /\ (c <= 57)%N.
Proof.
  unfold int_str, Z.to_int.
  destruct z as [|p|p]; cbn [Re.last_before].
  - eexists; split; [reflexivity | lia].
  - apply uint_str_last, Unsigned.to_uint_nonnil.
  - apply uint_str_last, Unsigned.to_uint_nonnil.
Qed.

Section Script.

Variable unicode_alnum : char -> bool.

Local Abbreviation is_word := (Re.is_word unicode_alnum).
Local Abbreviation match_at := (Re.match_at unicode_alnum).
Local Abbreviation search_from := (Re.search_from unicode_alnum).

Lemma digit_is_word (c : char) :
  (48 <= c)%N -> (c <= 57)%N -> is_word c = true.
Proof.
  intros H1 H2. unfold Re.is_word.
  replace (c <? 128)%N with true by (symmetry; apply N.ltb_lt; lia).
  replace (48 <=? c)%N with true by (symmetry; apply N.leb_le; lia).
  replace (c <=? 57)%N with true by (symmetry; apply N.leb_le; lia).
  reflexivity.
Qed.

Lemma guard_matches_here (PR_NUMBER : Z) (post : str) (prev : option char) :
  match post with [] => True | c :: _ => is_word c = false end ->
  match_at (guard_pattern PR_NUMBER) prev (pr_ref PR_NUMBER ++ post) <> None.
Proof.
  intros Hpost. unfold guard_pattern.
  rewrite match_escape, startswith_app.
  destruct (firstn_skipn_app3 (pr_ref PR_NUMBER) post) as [_ ->].
  change (Re.last_before prev (pr_ref PR_NUMBER))
    with (Re.last_before (Some (N_of_ascii "#")) (int_str PR_NUMBER)).
  destruct (int_str_last PR_NUMBER (Some (N_of_ascii "#"))) as (c & -> & H1 & H2).
  cbn [Re.match_at]. unfold Re.at_boundary.
  cbn [Re.word_before]. rewrite (digit_is_word _ H1 H2).
  destruct post as [|y post]; cbn [hd_error Re.word_before].
  - discriminate.
  - rewrite Hpost. discriminate.
Qed.

Lemma contains_token_recorded (PR_NUMBER : Z) (text : str) :
  contains_token unicode_alnum PR_NUMBER text ->
  already_recorded unicode_alnum PR_NUMBER text = true.
Proof.
  intros (pre & post & -> & Hpost).
  unfold already_recorded, Re.search.
  pose proof (@search_from_app unicode_alnum (guard_pattern PR_NUMBER)
                (pr_ref PR_NUMBER ++ post)
                (fun prev => guard_matches_here PR_NUMBER post prev Hpost)
                pre None) as H.
  now destruct (search_from _ _ _).
Qed.

Lemma uint_str_digits (d : Decimal.uint) :
  Forall (fun c => (48 <= c <= 57)%N) (uint_str d).
Proof. induction d; cbn [uint_str]; constructor; (lia || assumption). Qed.

Lemma int_str_chars (z : Z) :
  Forall (fun c => (45 <= c <= 57)%N) (int_str z).
Proof.
  unfold int_str. destruct (Z.to_int z) as [d|d].
  - eapply Forall_impl; [|apply uint_str_digits]. intros c H. simpl in H. lia.
  - constructor; [lia|].
    eapply Forall_impl; [|apply uint_str_digits]. intros c H. simpl in H. lia.
Qed.

Lemma pr_ref_chars (PR_NUMBER : Z) :
  Forall (fun c => (35 <= c <= 57)%N) (pr_ref PR_NUMBER).
Proof.
  unfold pr_ref. change (lit "#") with [35%N]. constructor; [lia|].
  eapply Forall_impl; [|apply int_str_chars]. intros c H. simpl in H. lia.
Qed.

(** The reference token is still there in the text as read. *)
Lemma token_survives_reading (PR_NUMBER : Z) (D : str) :
  contains_token unicode_alnum PR_NUMBER D ->
  contains_token unicode_alnum PR_NUMBER (universal_newlines D).
Proof.
  intros (pre & post & -> & Hpost).
  exists (universal_newlines pre), (universal_newlines post). split.
  - rewrite universal_newlines_app by (cbn; discriminate).
    rewrite universal_newlines_plain; [reflexivity|].
    eapply Forall_impl; [|apply pr_ref_chars].
    intros c H. simpl in H. unfold CR. lia.
  - destruct post as [|c post]; [exact I|].
    destruct (universal_newlines_head c post) as [s' ->].
    destruct (char_eqb c CR); [reflexivity | exact Hpost].
Qed.

(** C1.  A changelog whose text already holds the reference token [#N]
    (the PR number followed by a word boundary) is left as it is by a run
    for PR [N], whatever the generator did: the file afterwards is the file
    before, and the process ends through the guard's [sys.exit(0)] as soon
    as [parsed] is a dict. *)
Theorem merge_idempotent_per_pr (PR_NUMBER : Z) (ctx : pr_context)
    (g : generation) (D : str) :
  contains_token unicode_alnum PR_NUMBER D ->
  fst (run unicode_alnum PR_NUMBER ctx g (Some D)) = Some D
  /\ (g <> NotAnObject ->
      snd (run unicode_alnum PR_NUMBER ctx g (Some D)) = ExitZero).
Proof.
  intros H. apply token_survives_reading, contains_token_recorded in H.
  unfold run. destruct g; cbn [generate]; cbv zeta; rewrite ?H;
    cbn [fst snd]; easy.
Qed.

(** Lines 106-108: the normalized references are the model's, the PR's and
    the author's, each once, in increasing order. *)
Lemma normalize_references (PR_NUMBER : Z) (ctx : pr_context) (p : entry) :
  exists refs,
    references (normalize PR_NUMBER ctx p) = Some refs
    /\ StronglySorted str_lt refs
    /\ forall y, In y refs <->
                 In y (match references p with Some l => l | None => [] end)
                 \/ y = pr_ref PR_NUMBER \/ y = author_ref ctx.
Proof.
  eexists. split; [reflexivity|]. split; [apply sorted_set_sorted|].
  intros y. rewrite sorted_set_In, in_app_iff. simpl. intuition.
Qed.

(** *** The section pattern *)

Lemma section_match (cat : str) (prev : option char) (s : str) :
  match_at (section_pattern cat) prev s =
  if startswith UNRELEASED s
  then option_map
         (fun j => length UNRELEASED + (j + length (section_header cat)))
         (find (section_header cat) (skipn (length UNRELEASED) s))
  else None.
Proof.
  unfold section_pattern. rewrite match_escape.
  destruct (startswith UNRELEASED s); [|reflexivity].
  cbn [app]. rewrite match_lazy_escape.
  now destruct (find _ _).
Qed.

(** The search stops at the first [## [Unreleased]] and, from there, at the
    first header of the category. *)
Lemma search_section_found (cat : str) (s : str) (i j : nat)
    (prev : option char) :
  find UNRELEASED s = Some i ->
  find (section_header cat) (skipn (i + length UNRELEASED) s) = Some j ->
  search_from (section_pattern cat) prev s =
  Some (i, i + length UNRELEASED + j + length (section_header cat)).
Proof.
  revert i prev; induction s as [|x s IH]; intros i prev.
  - discriminate.
  - cbn [find Re.search_from]. rewrite section_match.
    destruct (startswith UNRELEASED (x :: s)).
    + intros [= <-] Hj. cbn [Nat.add] in Hj. rewrite Hj.
      cbn [option_map]. apply f_equal, f_equal. lia.
    + destruct (find UNRELEASED s) as [i'|] eqn:Hi; [|discriminate].
      intros [= <-] Hj. cbn [Nat.add skipn] in Hj.
      rewrite (IH i' (Some x) eq_refl Hj). reflexivity.
Qed.

Lemma heading_after_unreleased_intro (cat a b c : str) :
  heading_after_unreleased cat
    (a ++ UNRELEASED ++ b ++ section_header cat ++ c) = true.
Proof.
  unfold heading_after_unreleased.
  destruct (find_first UNRELEASED a (b ++ section_header cat ++ c))
    as (i & -> & Hi).
  apply contains_iff.
  exists (skipn (i + length UNRELEASED) (a ++ UNRELEASED ++ b)), c.
  rewrite !app_assoc.
  rewrite <- (app_assoc a UNRELEASED b).
  rewrite <- (app_assoc _ (section_header cat) c).
  rewrite <- (app_assoc _ (section_header cat) c).
  apply skipn_app_le. rewrite !length_app. lia.
Qed.

Lemma search_section_none (cat : str) (s : str) (prev : option char) :
  heading_after_unreleased cat s = false ->
  search_from (section_pattern cat) prev s = None.
Proof.
  intros H. apply search_from_none. intros q i.
  rewrite section_match.
  destruct (startswith UNRELEASED (skipn i s)) eqn:E1; [|reflexivity].
  destruct (find _ _) as [j|] eqn:E2; [|reflexivity].
  exfalso. apply startswith_split in E1. apply find_split in E2.
  rewrite <- (firstn_skipn i s), E1, E2 in H.
  rewrite heading_after_unreleased_intro in H. discriminate.
Qed.

Lemma UNRELEASED_LINE_nonempty : UNRELEASED_LINE <> [].
Proof. discriminate. Qed.

(** What [merge] does to a text with neither the line [## [Unreleased]] nor
    a header of the category after the heading: nothing. *)
Lemma merge_malformed (p : entry) (text : str) :
  contains UNRELEASED_LINE text = false ->
  heading_after_unreleased (get_str (category p) (lit "Changed")) text
  = false ->
  merge unicode_alnum p text = text.
Proof.
  intros H1 H2. unfold merge.
  assert (E : ensure_section text (get_str (category p) (lit "Changed")) = text).
  { unfold ensure_section. destruct (negb _); [|reflexivity].
    now apply replace_absent; [apply UNRELEASED_LINE_nonempty|]. }
  rewrite E. unfold splice, Re.search. rewrite (search_section_none _ _ _ H2).
  now apply replace_absent; [apply UNRELEASED_LINE_nonempty|].
Qed.

(** What [splice] does to a text whose first [## [Unreleased]] is followed,
    first, by the category's header at [mid]: the insertion goes right after
    that header. *)
Lemma splice_prepends (p : entry) (cat pre mid rest : str) :
  let hdr := section_header cat in
  let text := pre ++ UNRELEASED ++ mid ++ hdr ++ rest in
  find UNRELEASED text = Some (length pre) ->
  find hdr (mid ++ hdr ++ rest) = Some (length mid) ->
  splice unicode_alnum p cat text =
  pre ++ UNRELEASED ++ mid ++ hdr ++ insertion p ++ rest.
Proof.
  intros hdr text H1 H2. unfold splice, Re.search.
  assert (Hsk : skipn (length pre + length UNRELEASED) text
                = mid ++ hdr ++ rest).
  { unfold text. rewrite app_assoc, <- length_app.
    apply firstn_skipn_app3. }
  rewrite <- Hsk in H2.
  rewrite (search_section_found _ _ _ _ None H1 H2).
  fold hdr.
  set (k := length pre + length UNRELEASED + length mid + length hdr).
  assert (Hk : k = length (pre ++ UNRELEASED ++ mid ++ hdr)).
  { unfold k. rewrite !length_app. lia. }
  assert (Ht : text = (pre ++ UNRELEASED ++ mid ++ hdr) ++ rest).
  { unfold text. now rewrite <- !app_assoc. }
  rewrite Ht, Hk.
  destruct (firstn_skipn_app3 (pre ++ UNRELEASED ++ mid ++ hdr) rest)
    as [-> ->].
  now rewrite <- !app_assoc.
Qed.

(** The same for [merge], when the header stands on a line of its own:
    [ensure_section] finds it and changes nothing. *)
Lemma merge_prepends (p : entry) (pre mid rest : str) :
  let hdr := section_header (get_str (category p) (lit "Changed")) in
  let text := pre ++ UNRELEASED ++ mid ++ LF :: hdr ++ rest in
  find UNRELEASED text = Some (length pre) ->
  find hdr (mid ++ LF :: hdr ++ rest) = Some (S (length mid)) ->
  merge unicode_alnum p text =
  pre ++ UNRELEASED ++ mid ++ LF :: hdr ++ insertion p ++ rest.
Proof.
  intros hdr text H1 H2. unfold merge.
  assert (E : ensure_section text (get_str (category p) (lit "Changed")) = text).
  { unfold ensure_section. fold hdr.
    replace (contains (LF :: hdr) text) with true; [reflexivity|].
    symmetry. apply contains_iff.
    exists (pre ++ UNRELEASED ++ mid), rest. unfold text.
    now rewrite <- !app_assoc. }
  rewrite E.
  assert (Ht : text = pre ++ UNRELEASED ++ (mid ++ [LF]) ++ hdr ++ rest).
  { unfold text. now rewrite <- !app_assoc. }
  pose proof (splice_prepends p (get_str (category p) (lit "Changed"))
                pre (mid ++ [LF]) rest) as M.
  cbv zeta in M. fold hdr in M. rewrite <- Ht in M.
  rewrite M.
  - now rewrite <- !app_assoc.
  - exact H1.
  - rewrite <- app_assoc, length_app, Nat.add_1_r. exact H2.
Qed.

Lemma header_not_at_LF (cat s : str) :
  startswith (section_header cat) (LF :: s) = false.
Proof. reflexivity. Qed.

(** What [merge] does to a text with one line [## [Unreleased]], at the
    first [## [Unreleased]], and no header line of the category anywhere:
    the header is created right after that line and the insertion placed
    under it, followed by a blank line. *)
Lemma merge_creates_section (p : entry) (a b : str) :
  let hdr := section_header (get_str (category p) (lit "Changed")) in
  let text := a ++ UNRELEASED_LINE ++ b in
  find UNRELEASED text = Some (length a) ->
  contains UNRELEASED_LINE b = false ->
  contains (LF :: hdr) text = false ->
  merge unicode_alnum p text
  = a ++ UNRELEASED_LINE ++ [LF] ++ hdr ++ insertion p ++ [LF] ++ b.
Proof.
  intros hdr text H1 H2 H3. unfold merge, ensure_section.
  fold hdr. rewrite H3. cbn [negb].
  assert (E : replace UNRELEASED_LINE (UNRELEASED_LINE ++ [LF] ++ hdr ++ [LF])
                text
              = a ++ UNRELEASED ++ [LF; LF] ++ hdr ++ LF :: b).
  { rewrite (replace_at_first _ _ _ (length a) UNRELEASED_LINE_nonempty).
    - assert (F : firstn (length a) text = a) by apply firstn_skipn_app3.
      assert (S : skipn (length a + length UNRELEASED_LINE) text = b).
      { unfold text. rewrite <- length_app, app_assoc.
        apply firstn_skipn_app3. }
      rewrite F, S, (replace_absent _ _ _ UNRELEASED_LINE_nonempty H2).
      unfold UNRELEASED_LINE. now rewrite <- !app_assoc.
    - apply (find_longer UNRELEASED [LF] a b). exact H1. }
  rewrite E.
  pose proof (splice_prepends p (get_str (category p) (lit "Changed"))
                a [LF; LF] (LF :: b)) as M.
  cbv zeta in M. fold hdr in M. rewrite M.
  - unfold UNRELEASED_LINE. now rewrite <- !app_assoc.
  - apply (find_extension UNRELEASED a ([LF] ++ b)).
    unfold text, UNRELEASED_LINE in H1. now rewrite <- app_assoc in H1.
  - unfold hdr. cbn [app find]. rewrite !header_not_at_LF.
    cbn [option_map]. now rewrite find_unfold, startswith_app.
Qed.

(** *** Texts that can be encoded *)

Lemma encodable_spec (s : str) :
  encodable s = true <-> forall c, In c s -> is_surrogate c = false.
Proof.
  unfold encodable. rewrite forallb_forall. split; intros H c Hc.
  - now apply negb_true_iff, H.
  - now apply negb_true_iff, H.
Qed.

Lemma encodable_incl (a b : str) :
  (forall c, In c a -> In c b) -> encodable b = true -> encodable a = true.
Proof. rewrite !encodable_spec. auto. Qed.

Lemma encodable_cut (n : nat) (s : str) :
  encodable s = true ->
  encodable (firstn n s) = true /\ encodable (skipn n s) = true.
Proof.
  intros H. rewrite <- (firstn_skipn n s), encodable_app in H.
  now apply andb_true_iff in H.
Qed.

Lemma lstrip_incl (s : str) (c : char) : In c (lstrip s) -> In c s.
Proof.
  induction s as [|x s IH]; [easy|]. cbn [lstrip].
  destruct (is_space x); [right; auto | auto].
Qed.

Lemma encodable_strip (s : str) :
  encodable s = true -> encodable (strip s) = true.
Proof.
  apply encodable_incl. intros c. unfold strip, rstrip.
  intros H. apply in_rev, lstrip_incl, in_rev in H. now apply lstrip_incl.
Qed.

Lemma encodable_replace_from (old new : str) (k : nat) (s : str) :
  encodable new = true -> encodable s = true ->
  encodable (replace_from old new k s) = true.
Proof.
  intros Hn. revert k. induction s as [|c s IH]; intros k Hs; [reflexivity|].
  change (encodable (c :: s)) with (negb (is_surrogate c) && encodable s) in Hs.
  apply andb_true_iff in Hs as [Hc Hs].
  cbn [replace_from]. destruct k as [|k]; [|now apply IH].
  destruct (startswith old (c :: s)).
  - rewrite encodable_app, Hn. now apply IH.
  - change (negb (is_surrogate c)
            && encodable (replace_from old new 0 s) = true).
    rewrite Hc. now apply IH.
Qed.

Lemma encodable_replace (old new s : str) :
  old <> [] -> encodable new = true -> encodable s = true ->
  encodable (replace old new s) = true.
Proof.
  intros Ho. destruct old; [easy|]. apply encodable_replace_from.
Qed.

Lemma encodable_join (sep : str) (parts : list str) :
  encodable sep = true -> forallb encodable parts = true ->
  encodable (join sep parts) = true.
Proof.
  intros Hs. induction parts as [|q parts IH]; [reflexivity|].
  cbn [forallb]. intros H. apply andb_true_iff in H as [Hq H].
  destruct parts as [|q' parts]; [exact Hq|].
  change (join sep (q :: q' :: parts)) with (q ++ sep ++ join sep (q' :: parts)).
  rewrite !encodable_app, Hq, Hs. now apply IH.
Qed.

Lemma encodable_int_str (z : Z) : encodable (int_str z) = true.
Proof.
  apply encodable_spec. intros c Hc.
  pose proof (proj1 (Forall_forall _ _) (int_str_chars z) c Hc) as H.
  simpl in H. unfold is_surrogate.
  replace (55296 <=? c)%N with false; [reflexivity|].
  symmetry. apply N.leb_gt. lia.
Qed.

Lemma encodable_header (cat : str) :
  encodable cat = true -> encodable (section_header cat) = true.
Proof.
  intros H. unfold section_header.
  now rewrite !encodable_app, encodable_lit, H.
Qed.

(** The bullet block of an entry is made of the entry's texts, the
    author's name, the PR number and ASCII. *)
Lemma encodable_insertion (PR_NUMBER : Z) (ctx : pr_context) (p : entry) :
  entry_encodable p = true -> encodable (author ctx) = true ->
  encodable (insertion (normalize PR_NUMBER ctx p)) = true.
Proof.
  unfold entry_encodable. intros H Ha.
  apply andb_true_iff in H as [H Hrefs].
  apply andb_true_iff in H as [H Hmig].
  apply andb_true_iff in H as [H Hscope].
  apply andb_true_iff in H as [_ Hsum].
  unfold insertion, bullet, refs_str, bullet_parts.
  cbn [normalize summary scope breaking migration references].
  rewrite !encodable_app, !encodable_lit. cbn [andb].
  apply andb_true_iff; split; [|apply andb_true_iff; split].
  - apply encodable_join; [reflexivity|].
    apply forallb_forall. intros x Hx. apply filter_In in Hx as [Hx _].
    apply in_app_iff in Hx as [Hx|Hx];
      [|apply in_app_iff in Hx as [Hx|Hx]].
    + destruct (truthy_str (scope p)); [|easy].
      destruct Hx as [<-|[]].
      now rewrite !encodable_app, !encodable_lit, Hscope.
    + destruct (truthy_bool (breaking p)); [|easy].
      now destruct Hx as [<-|[]].
    + now destruct Hx as [<-|[]].
  - apply andb_true_iff; split; [|reflexivity].
    apply encodable_join; [reflexivity|].
    apply forallb_forall. intros x Hx.
    apply sorted_set_In, in_app_iff in Hx as [Hx|Hx].
    + exact (proj1 (forallb_forall _ _) Hrefs x Hx).
    + destruct Hx as [<-|[<-|[]]].
      * unfold pr_ref. now rewrite encodable_app, encodable_lit, encodable_int_str.
      * unfold author_ref. now rewrite encodable_app, encodable_lit.
  - destruct (truthy_bool (breaking p) && truthy_str (migration p));
      [|reflexivity].
    now rewrite !encodable_app, encodable_lit, Hmig.
Qed.

Lemma encodable_merge (p : entry) (text : str) :
  encodable text = true ->
  encodable (section_header (get_str (category p) (lit "Changed"))) = true ->
  encodable (insertion p) = true ->
  encodable (merge unicode_alnum p text) = true.
Proof.
  intros Ht Hh Hi. unfold merge.
  set (cat := get_str (category p) (lit "Changed")) in *.
  assert (H1 : encodable (ensure_section text cat) = true).
  { unfold ensure_section. destruct (negb _); [|exact Ht].
    apply encodable_replace; [apply UNRELEASED_LINE_nonempty | | exact Ht].
    now rewrite !encodable_app, Hh. }
  unfold splice.
  destruct (Re.search unicode_alnum (section_pattern cat) _) as [[i idx]|].
  - destruct (encodable_cut idx _ H1) as [F S].
    now rewrite !encodable_app, F, Hi, S.
  - apply encodable_replace; [apply UNRELEASED_LINE_nonempty | | exact H1].
    now rewrite !encodable_app, Hh, Hi.
Qed.

Lemma encodable_fallback (ctx : pr_context) :
  ctx_encodable ctx = true -> entry_encodable (fallback ctx) = true.
Proof.
  unfold ctx_encodable, entry_encodable. intros H.
  apply andb_true_iff in H as [H Hs]. apply andb_true_iff in H as [_ Ht].
  cbn [fallback category summary scope migration references get_str forallb].
  rewrite Hs, andb_true_r, andb_true_r. cbn [encodable forallb]. rewrite andb_true_r.
  apply encodable_strip in Ht.
  now destruct (encodable_cut 200 _ Ht).
Qed.

(** *** The claims on [run] *)

(** C5, as the code has it.  The text worked on is the file's as read, with
    [\r\n] and [\r] turned into [\n].  When that text passes the guard and
    its first [## [Unreleased]] is followed by the header line
    [### <Category>] of the entry's category, with no earlier occurrence of
    the text [### <Category>\n] after the heading, the run writes the text
    as read with the new bullet block placed right after that header line,
    before whatever the section already holds ([rest]); nothing else of the
    text as read changes.  When the bullet block cannot be encoded the file is
    left empty and the run ends in the error of the write. *)
Theorem prepend_and_frame (PR_NUMBER : Z) (ctx : pr_context) (g : generation)
    (p : entry) (D pre mid rest : str) :
  let hdr := section_header (get_str (category p) (lit "Changed")) in
  let text := pre ++ UNRELEASED ++ mid ++ LF :: hdr ++ rest in
  let ins := insertion (normalize PR_NUMBER ctx p) in
  generate ctx g = Some p ->
  universal_newlines D = text ->
  encodable D = true ->
  already_recorded unicode_alnum PR_NUMBER text = false ->
  find UNRELEASED text = Some (length pre) ->
  find hdr (mid ++ LF :: hdr ++ rest) = Some (S (length mid)) ->
  run unicode_alnum PR_NUMBER ctx g (Some D) =
  if encodable ins
  then (Some (pre ++ UNRELEASED ++ mid ++ LF :: hdr ++ ins ++ rest), Completed)
  else (Some [], WriteFails).
Proof.
  intros hdr text ins Hg HD He Hguard H1 H2. unfold run. rewrite Hg.
  cbv zeta. rewrite HD, Hguard.
  pose proof (merge_prepends (normalize PR_NUMBER ctx p) pre mid rest) as M.
  cbv zeta in M. cbn [normalize category] in M.
  fold hdr in M. fold text in M. fold ins in M. rewrite (M H1 H2).
  apply encodable_universal_newlines in He. rewrite HD in He.
  assert (E : encodable (pre ++ UNRELEASED ++ mid ++ LF :: hdr ++ ins ++ rest)
              = encodable ins).
  { unfold text in He.
    change (LF :: hdr ++ rest) with ([LF] ++ hdr ++ rest) in He.
    change (LF :: hdr ++ ins ++ rest) with ([LF] ++ hdr ++ ins ++ rest).
    rewrite !encodable_app in *.
    repeat (apply andb_true_iff in He as [? He]).
    repeat match goal with H : _ = true |- _ => rewrite H end.
    cbn [andb]. now rewrite andb_true_r. }
  now rewrite E.
Qed.

(** C9, as the code has it.  When the text as read (with [\r\n] and [\r]
    turned into [\n]) passes the guard, does not hold [## [Unreleased]]
    followed by a newline and does not hold the text [### <category>] with
    its newline anywhere after a [## [Unreleased]], the run writes that text
    back: the new bullet is dropped and the process ends normally.  A file
    without [\r] is left exactly as it was. *)
Theorem malformed_document_drops_entry (PR_NUMBER : Z) (ctx : pr_context)
    (g : generation) (p : entry) (D : str) :
  let text := universal_newlines D in
  generate ctx g = Some p ->
  encodable D = true ->
  already_recorded unicode_alnum PR_NUMBER text = false ->
  contains UNRELEASED_LINE text = false ->
  heading_after_unreleased (get_str (category p) (lit "Changed")) text
  = false ->
  run unicode_alnum PR_NUMBER ctx g (Some D) = (Some text, Completed)
  /\ (contains [CR] D = false ->
      run unicode_alnum PR_NUMBER ctx g (Some D) = (Some D, Completed)).
Proof.
  intros text Hg He Hguard H1 H2.
  assert (R : run unicode_alnum PR_NUMBER ctx g (Some D)
              = (Some text, Completed)).
  { unfold run. rewrite Hg. cbv zeta. fold text. rewrite Hguard.
    rewrite (merge_malformed (normalize PR_NUMBER ctx p) text H1 H2 : _ = text).
    unfold text. now rewrite (encodable_universal_newlines _ He). }
  split; [exact R|].
  intros Hcr. rewrite R. unfold text. now rewrite (universal_newlines_id _ Hcr).
Qed.

(** C7, as the code has it.  When the generator call raises, the entry the
    merge starts from, before the references are normalized, is
    [{category: "Changed", summary: the title stripped of surrounding white
    space and then cut to 200 characters, scope: scope_guess, breaking:
    false, migration: "", references: []}], and the run goes on as with a
    reply of that content: it does not end in the [AttributeError], it
    leaves a changelog file, and it ends at the guard or after the write
    when title, author, scope and file can be encoded.  A reply is not
    checked against the schema: one that parses to an object is used as it
    is, and one that parses to anything else ends the run in the
    [AttributeError], the file untouched. *)
Theorem fallback_determinism (PR_NUMBER : Z) (ctx : pr_context)
    (disk : option str) :
  generate ctx Raises =
  Some {| category := Some (lit "Changed");
          summary := Some (firstn 200 (strip (title ctx)));
          scope := Some (scope_guess ctx);
          breaking := Some false;
          migration := Some [];
          references := Some [] |}
  /\ run unicode_alnum PR_NUMBER ctx Raises disk
     = run unicode_alnum PR_NUMBER ctx (Object (fallback ctx)) disk
  /\ snd (run unicode_alnum PR_NUMBER ctx Raises disk) <> Uncaught
  /\ fst (run unicode_alnum PR_NUMBER ctx Raises disk) <> None
  /\ (ctx_encodable ctx = true -> file_encodable disk = true ->
      snd (run unicode_alnum PR_NUMBER ctx Raises disk) = ExitZero
      \/ snd (run unicode_alnum PR_NUMBER ctx Raises disk) = Completed)
  /\ (forall e, generate ctx (Object e) = Some e)
  /\ run unicode_alnum PR_NUMBER ctx NotAnObject disk = (disk, Uncaught).
Proof.
  split; [reflexivity|]. split; [reflexivity|].
  split; [|split; [|split; [|split; reflexivity]]].
  - unfold run; cbn [generate]; cbv zeta.
    destruct (already_recorded _ _ _); [discriminate|].
    destruct (encodable _); discriminate.
  - unfold run; cbn [generate]; cbv zeta.
    destruct (already_recorded _ _ _); [discriminate|].
    destruct (encodable _); discriminate.
  - intros Hc Hd. unfold run; cbn [generate]; cbv zeta.
    destruct (already_recorded _ _ _); [now left|]. right.
    rewrite encodable_merge; [reflexivity | | |].
    + apply encodable_universal_newlines.
      destruct disk as [t|]; [exact Hd | reflexivity].
    + reflexivity.
    + apply encodable_insertion; [now apply encodable_fallback|].
      unfold ctx_encodable in Hc.
      apply andb_true_iff in Hc as [Hc _]. now apply andb_true_iff in Hc.
Qed.

(** C3, as the code has it.  From the skeleton (the file absent, or holding
    exactly the skeleton) the run for PR 99 by alice writes the skeleton
    followed by the line [### Fixed], immediately the bullet line with the
    references [#7, #99, @alice] (the model's list plus the PR and the
    author, without duplicates, sorted), the migration line, and then the
    blank lines. *)
Theorem end_to_end_scenario (title scope_guess : str) :
  let expected :=
    skeleton ++ lit "### Fixed" ++ [LF]
    ++ scenario_bullet ++ scenario_migration ++ [LF; LF] in
  references (normalize 99 (scenario_ctx title scope_guess) scenario_entry)
  = Some [lit "#7"; lit "#99"; lit "@alice"]
  /\ run unicode_alnum 99 (scenario_ctx title scope_guess)
       (Object scenario_entry) None = (Some expected, Completed)
  /\ run unicode_alnum 99 (scenario_ctx title scope_guess)
       (Object scenario_entry) (Some skeleton) = (Some expected, Completed).
Proof. repeat split; vm_compute; reflexivity. Qed.

(** C2, where the code departs from it.  Merging a Security entry into
    [released_security_doc], which has no [### Security] under
    [## [Unreleased]], creates no subsection there: the bullet lands in the
    [### Security] section of release 1.0.0. *)
Theorem category_creation_misses_released_section (title scope_guess : str) :
  run unicode_alnum 5 (scenario_ctx title scope_guess)
    (Object security_entry) (Some released_security_doc)
  = (Some (lit "# Changelog" ++ [LF; LF]
           ++ UNRELEASED ++ [LF; LF]
           ++ lit "## [1.0.0]" ++ [LF; LF]
           ++ lit "### Security" ++ [LF]
           ++ lit " - Patch login bypass (#5, @alice)" ++ [LF]
           ++ lit " - Rotate keys (#1, @bob)" ++ [LF]),
     Completed).
Proof. vm_compute; reflexivity. Qed.

End Script.

(** The hypotheses of C1 hold of [recorded_doc] and PR 42. *)
Lemma merge_idempotent_per_pr_witness :
  contains_token Re.ascii_alnum_only 42 recorded_doc
  /\ fst (run Re.ascii_alnum_only 42 padded_title_ctx Raises
            (Some recorded_doc)) = Some recorded_doc
  /\ (Raises <> NotAnObject ->
      snd (run Re.ascii_alnum_only 42 padded_title_ctx Raises
             (Some recorded_doc)) = ExitZero).
Proof.
  assert (H : contains_token Re.ascii_alnum_only 42 recorded_doc).
  { exists (lit "# Changelog" ++ [LF; LF] ++ UNRELEASED ++ [LF; LF]
            ++ lit "### Fixed" ++ [LF] ++ lit " - Fix crash ("),
           (lit ", @bob)" ++ [LF]).
    split; reflexivity. }
  split; [exact H|].
  exact (merge_idempotent_per_pr Re.ascii_alnum_only 42 padded_title_ctx
           Raises recorded_doc H).
Defined.

(** C5 on the document with [### Added] holding "- old item", the file
    with CRLF line ends. *)
Lemma prepend_and_frame_witness :
  run Re.ascii_alnum_only 7 padded_title_ctx (Object added_entry)
    (Some crlf_doc)
  = (Some (added_pre ++ UNRELEASED ++ added_mid
           ++ LF :: section_header (lit "Added")
           ++ lit " - Add dark mode (#7, @alice)" ++ [LF] ++ added_rest),
     Completed).
Proof.
  exact (prepend_and_frame Re.ascii_alnum_only 7 padded_title_ctx
           (Object added_entry) added_entry crlf_doc
           added_pre added_mid added_rest
           eq_refl eq_refl eq_refl eq_refl eq_refl eq_refl).
Defined.

(** C5 as stated fails.  With an [#### Added] line above the
    [### Added] section the bullet goes under the level-4 line; without
    [## [Unreleased]] before the section the bullet is dropped; a file with
    CRLF line ends is written back without its [\r]; and a bullet that
    cannot be encoded leaves the file empty. *)
Lemma prepend_and_frame_counterexample :
  run Re.ascii_alnum_only 7 padded_title_ctx (Object added_entry)
    (Some level4_doc)
  = (Some (lit "# Changelog" ++ [LF; LF]
           ++ UNRELEASED ++ [LF; LF]
           ++ lit "#### Added" ++ [LF]
           ++ lit " - Add dark mode (#7, @alice)" ++ [LF]
           ++ lit "- sub item" ++ [LF; LF]
           ++ lit "### Added" ++ [LF]
           ++ lit "- old item" ++ [LF]),
     Completed)
  /\ run Re.ascii_alnum_only 7 padded_title_ctx (Object added_entry)
       (Some headless_doc)
     = (Some headless_doc, Completed)
  /\ contains (lit "- old item" ++ [CR; LF]) crlf_doc = true
  /\ option_map (contains [CR])
       (fst (run Re.ascii_alnum_only 7 padded_title_ctx (Object added_entry)
               (Some crlf_doc)))
     = Some false
  /\ run Re.ascii_alnum_only 7 padded_title_ctx (Object surrogate_entry)
       (Some (added_pre ++ UNRELEASED ++ added_mid
              ++ LF :: section_header (lit "Added") ++ added_rest))
     = (Some [], WriteFails).
Proof. repeat split; vm_compute; reflexivity. Qed.

(** C9 on the document that ends in the heading without newline. *)
Lemma malformed_document_drops_entry_witness :
  run Re.ascii_alnum_only 7 padded_title_ctx (Object added_entry)
    (Some unterminated_doc)
  = (Some (universal_newlines unterminated_doc), Completed)
  /\ (contains [CR] unterminated_doc = false ->
      run Re.ascii_alnum_only 7 padded_title_ctx (Object added_entry)
        (Some unterminated_doc)
      = (Some unterminated_doc, Completed)).
Proof.
  exact (malformed_document_drops_entry Re.ascii_alnum_only 7
           padded_title_ctx (Object added_entry) added_entry unterminated_doc
           eq_refl eq_refl eq_refl eq_refl eq_refl).
Defined.

(** C9 as stated fails.  [next_doc] has neither [## [Unreleased]] followed
    by a newline nor a line [### Added], and the run puts the bullet under
    its [#### Added] line; the skeleton with CRLF line ends has neither, as
    the file stands, and the run creates the section and places the bullet. *)
Lemma malformed_document_drops_entry_counterexample :
  (contains UNRELEASED_LINE next_doc = false
   /\ has_heading_line (lit "Added") next_doc = false
   /\ already_recorded Re.ascii_alnum_only 7 next_doc = false
   /\ run Re.ascii_alnum_only 7 padded_title_ctx (Object added_entry)
        (Some next_doc)
      = (Some (UNRELEASED ++ lit " (next)" ++ [LF; LF]
               ++ lit "#### Added" ++ [LF]
               ++ lit " - Add dark mode (#7, @alice)" ++ [LF]
               ++ lit "- x" ++ [LF]),
         Completed))
  /\ (contains UNRELEASED_LINE crlf_skeleton = false
      /\ has_heading_line (lit "Added") crlf_skeleton = false
      /\ already_recorded Re.ascii_alnum_only 7 crlf_skeleton = false
      /\ run Re.ascii_alnum_only 7 padded_title_ctx (Object added_entry)
           (Some crlf_skeleton)
         = (Some (lit "# Changelog" ++ [LF; LF] ++ UNRELEASED ++ [LF; LF]
                  ++ lit "### Added" ++ [LF]
                  ++ lit " - Add dark mode (#7, @alice)" ++ [LF]
                  ++ [LF; LF]),
            Completed)).
Proof. repeat split; vm_compute; reflexivity. Qed.

(** C7 for a PR whose title starts with a blank, the file absent. *)
Lemma fallback_determinism_witness :
  ctx_encodable padded_title_ctx = true
  /\ file_encodable None = true
  /\ (snd (run Re.ascii_alnum_only 7 padded_title_ctx Raises None) = ExitZero
      \/ snd (run Re.ascii_alnum_only 7 padded_title_ctx Raises None)
         = Completed).
Proof.
  split; [reflexivity|]. split; [reflexivity|].
  exact (proj1 (proj2 (proj2 (proj2 (proj2
           (fallback_determinism Re.ascii_alnum_only 7 padded_title_ctx
              None))))) eq_refl eq_refl).
Defined.

(** C3 as stated fails: the text written in the scenario does not hold the
    block with a blank line between [### Fixed] and the bullet. *)
Lemma end_to_end_scenario_counterexample :
  option_map (contains scenario_claimed_block)
    (fst (run Re.ascii_alnum_only 99 (scenario_ctx [] [])
            (Object scenario_entry) (Some skeleton)))
  = Some false.
Proof. vm_compute; reflexivity. Qed.

(** C7 as stated fails: for the title [" x"] the fallback summary is not the
    title cut to 200 characters, the blank is gone; and a reply that is
    valid JSON but no object gives no fallback entry: the run ends in the
    [AttributeError]. *)
Lemma fallback_determinism_counterexample :
  generate padded_title_ctx Raises <>
  Some {| category := Some (lit "Changed");
          summary := Some (firstn 200 (title padded_title_ctx));
          scope := Some (scope_guess padded_title_ctx);
          breaking := Some false;
          migration := Some [];
          references := Some [] |}
  /\ generate padded_title_ctx NotAnObject = None
  /\ run Re.ascii_alnum_only 7 padded_title_ctx NotAnObject
       (Some recorded_doc)
     = (Some recorded_doc, Uncaught).
Proof. split; [cbv; discriminate | split; reflexivity]. Qed.

End ChangelogFacts.

(** ** The agents-instructions merge *)

Module AgentsFacts.

Import UpdateAgents PyStrFacts.

Lemma contains_nil (s : str) : contains [] s = true.
Proof. now rewrite contains_unfold. Qed.

Lemma absent_nonempty (r text : str) : contains r text = false -> r <> [].
Proof. intros H ->. now rewrite contains_nil in H. Qed.

Lemma truthy_nonempty (r : str) : r <> [] -> truthy r = true.
Proof. now destruct r. Qed.

(** The two branches of [ensure_always_include_block]. *)
Lemma ensure_absent (text required : str) :
  contains (strip required) text = false ->
  ensure_always_include_block text required
  = text ++ [LF; LF] ++ strip required ++ [LF].
Proof.
  intros H. unfold ensure_always_include_block.
  rewrite (truthy_nonempty _ (absent_nonempty _ _ H)), H.
  now destruct (endswith [LF] text).
Qed.

Lemma ensure_present (text required : str) :
  contains (strip required) text = true ->
  ensure_always_include_block text required = text.
Proof.
  intros H. unfold ensure_always_include_block. rewrite H.
  now destruct (negb _).
Qed.

Lemma ensure_extends (text required : str) :
  exists tail, ensure_always_include_block text required = text ++ tail.
Proof.
  destruct (contains (strip required) text) eqn:E.
  - exists []. now rewrite ensure_present, app_nil_r.
  - eexists. now rewrite ensure_absent.
Qed.

Lemma ensure_contains (text required : str) :
  contains (strip required) (ensure_always_include_block text required)
  = true.
Proof.
  destruct (contains (strip required) text) eqn:E.
  - now rewrite ensure_present.
  - rewrite (ensure_absent _ _ E). apply contains_iff.
    exists (text ++ [LF; LF]), [LF]. now rewrite <- app_assoc.
Qed.

Lemma ensure_count_once (text required : str) :
  strip required <> [] ->
  count (strip required) text <= 1 ->
  count (strip required) (ensure_always_include_block text required) = 1.
Proof.
  intros Hr Hc. destruct (contains (strip required) text) eqn:E.
  - rewrite (ensure_present _ _ E).
    pose proof (count_present _ _ Hr E). lia.
  - rewrite (ensure_absent _ _ E).
    destruct (exists_last Hr) as (r' & c & Hs). rewrite Hs in *.
    apply count_appended; [|exact E].
    exact (strip_last_not_LF _ _ _ Hs).
Qed.

(** C4, as the code has it.  With [r] the stripped always-include block:
    when [r] is not a substring of the working text, the result is the
    text, a separator made of newlines only, [r] and one newline, so it ends
    in a single newline; for a text that does not end in a newline the
    result is exactly the text, two newlines, [r] and a newline, so that,
    the text not being empty, exactly one blank line separates the block
    from the content; when [r] is a substring, the text is returned
    unchanged, so the block occurs as often as before (once in a text that
    held it once). *)
Theorem always_include_guard (text required : str) :
  let r := strip required in
  let result := ensure_always_include_block text required in
  (contains r text = false ->
   (exists sep, result = text ++ sep ++ r ++ [LF]
                /\ sep <> [] /\ Forall (eq LF) sep)
   /\ (endswith [LF] text = false -> result = text ++ [LF; LF] ++ r ++ [LF])
   /\ trailing_newlines result = 1
   /\ (text <> [] -> endswith [LF] text = false ->
       blank_lines_before r result = 1))
  /\ (contains r text = true ->
      result = text /\ count r result = count r text).
Proof.
  intros r result. split.
  - intros H. unfold result. rewrite (ensure_absent _ _ H). fold r.
    destruct (exists_last (absent_nonempty _ _ H)) as (r' & c & Hs).
    fold r in Hs. pose proof (strip_last_not_LF _ _ _ Hs) as Hc.
    split.
    { exists [LF; LF]. split; [reflexivity|].
      split; [discriminate | repeat constructor]. }
    split; [reflexivity|]. split.
    + rewrite Hs.
      replace (text ++ [LF; LF] ++ (r' ++ [c]) ++ [LF])
        with ((text ++ [LF; LF] ++ r') ++ [c; LF])
        by (now rewrite <- !app_assoc).
      now apply trailing_newlines_one.
    + intros Ht He.
      destruct (endswith_LF_false _ Ht He) as (t & d & -> & Hd).
      unfold blank_lines_before.
      replace ((t ++ [d]) ++ [LF; LF] ++ r ++ [LF])
        with ((t ++ [d; LF; LF]) ++ r ++ [LF])
        by (now rewrite <- !app_assoc).
      replace (length ((t ++ [d; LF; LF]) ++ r ++ [LF]) - (length r + 1))
        with (length (t ++ [d; LF; LF]))
        by (rewrite !length_app; simpl; lia).
      destruct (firstn_skipn_app3 (t ++ [d; LF; LF]) (r ++ [LF])) as [-> _].
      assert (E : char_eqb d LF = false)
        by (destruct (char_eqb d LF) eqn:E; [now apply char_eqb_eq in E|easy]).
      unfold trailing_newlines. rewrite rev_app_distr, length_app.
      change (rev [d; LF; LF] ++ rev t) with (LF :: LF :: d :: rev t).
      cbn [leading_newlines]. change (char_eqb LF LF) with true.
      rewrite E. cbn [length].
      replace (2 =? length t + 3) with false
        by (symmetry; apply Nat.eqb_neq; lia).
      reflexivity.
  - intros H. unfold result. now rewrite (ensure_present _ _ H).
Qed.

(** C6, as the code has it.  When the generator call raises, the working
    text is the on-disk content with the block enforced: it contains the
    stripped block, appended after the original content when that lacked it
    and the original content itself otherwise, so it holds the block once
    whenever the original held it at most once; the summary is the fixed
    notice. *)
Theorem always_include_under_failure (ALWAYS_INCLUDE : str)
    (disk : option str) :
  let current := match disk with Some t => t | None => [] end in
  let r := strip ALWAYS_INCLUDE in
  let content := fst (llm_update ALWAYS_INCLUDE disk Raises) in
  content = ensure_always_include_block current ALWAYS_INCLUDE
  /\ snd (llm_update ALWAYS_INCLUDE disk Raises) = NOTICE
  /\ contains r content = true
  /\ (contains r current = false ->
      exists sep, content = current ++ sep ++ r ++ [LF])
  /\ (contains r current = true -> content = current)
  /\ (r <> [] -> count r current <= 1 -> count r content = 1).
Proof.
  intros current r content.
  assert (E : content = ensure_always_include_block current ALWAYS_INCLUDE).
  { unfold content, llm_update. fold current. cbn [fst].
    now destruct (truthy current). }
  rewrite E. repeat split.
  - apply ensure_contains.
  - intros H. exists [LF; LF]. now apply ensure_absent.
  - apply ensure_present.
  - apply ensure_count_once.
Qed.

Lemma all_set_find (getenv : string -> option str) :
  all_set getenv = true -> List.find (unset getenv) REQUIRED_KEYS = None.
Proof.
  unfold all_set. generalize REQUIRED_KEYS.
  induction l as [|k l IH]; [reflexivity|].
  cbn [forallb List.find]. intros H. apply andb_true_iff in H as [Hk Hl].
  unfold unset at 1. destruct (getenv k) as [v|]; [|discriminate].
  rewrite Hk. cbn [negb]. now apply IH.
Qed.

(** C8.  With the required variables set, an exception raised by [main()]
    is printed to [stderr] and then, in mode [apply], raised again, while in
    mode [suggest] (and in any mode other than [apply]) the process goes on
    to its normal end. *)
Theorem mode_sensitive_propagation (getenv : string -> option str)
    (e : exn) :
  all_set getenv = true ->
  let logged := [lit "update_agents.py failed: " ++ message e] in
  entry_point getenv (lit "apply") (MainRaises e) = (logged, Propagates e)
  /\ entry_point getenv (lit "suggest") (MainRaises e) = (logged, Finishes)
  /\ (forall MODE, str_eqb MODE (lit "apply") = false ->
      entry_point getenv MODE (MainRaises e) = (logged, Finishes)).
Proof.
  intros H logged. unfold entry_point. rewrite (all_set_find _ H).
  repeat split. intros MODE ->. reflexivity.
Qed.

(** C10.  When the generator succeeds with [updated_content] the empty
    string, the merge result for a target with non-empty content is that
    content with the always-include block enforced: it starts with the
    current content and is not empty. *)
Theorem empty_replacement_keeps_document (ALWAYS_INCLUDE current : str)
    (s : option json) :
  current <> [] ->
  let result :=
    fst (llm_update ALWAYS_INCLUDE (Some current)
           (Dict {| updated_content := Some (JString []); summary := s |})) in
  result = ensure_always_include_block current ALWAYS_INCLUDE
  /\ firstn (length current) result = current
  /\ result <> [].
Proof.
  intros Hc result.
  assert (E : result = ensure_always_include_block current ALWAYS_INCLUDE)
    by reflexivity.
  split; [exact E|]. rewrite E.
  destruct (ensure_extends current ALWAYS_INCLUDE) as [tail ->].
  split.
  - apply firstn_skipn_app3.
  - destruct current; [easy | discriminate].
Qed.

(** C4 on a text without the block and not ending in a newline, and on a
    text that holds the block. *)
Lemma always_include_guard_witness :
  (ensure_always_include_block agents_open block_xyz
   = agents_open ++ [LF; LF] ++ lit "xyz" ++ [LF]
   /\ trailing_newlines (ensure_always_include_block agents_open block_xyz)
      = 1
   /\ blank_lines_before (strip block_xyz)
        (ensure_always_include_block agents_open block_xyz) = 1)
  /\ ensure_always_include_block agents_with_block block_xyz
     = agents_with_block.
Proof.
  split.
  - destruct (always_include_guard agents_open block_xyz) as [H _].
    destruct (H eq_refl) as (_ & H0 & H1 & H2).
    split; [exact (H0 eq_refl) | split];
      [exact H1 | apply H2; [discriminate | reflexivity]].
  - destruct (always_include_guard agents_with_block block_xyz) as [_ H].
    exact (proj1 (H eq_refl)).
Defined.

(** C4 as stated fails: appended to a text that ends in a newline the block
    comes after two blank lines; a text that holds the block twice keeps
    both copies. *)
Lemma always_include_guard_counterexample :
  (contains (strip block_xyz) agents_closed = false
   /\ blank_lines_before (strip block_xyz)
        (ensure_always_include_block agents_closed block_xyz) = 2)
  /\ (contains (strip block_xyz) agents_with_two_blocks = true
      /\ count (strip block_xyz)
           (ensure_always_include_block agents_with_two_blocks block_xyz)
         = 2).
Proof. repeat split; vm_compute; reflexivity. Qed.

(** C6 on a target without the block. *)
Lemma always_include_under_failure_witness :
  count (strip block_xyz)
    (fst (llm_update block_xyz (Some agents_closed) Raises)) = 1
  /\ (exists sep,
        fst (llm_update block_xyz (Some agents_closed) Raises)
        = agents_closed ++ sep ++ strip block_xyz ++ [LF]).
Proof.
  destruct (always_include_under_failure block_xyz (Some agents_closed))
    as (_ & _ & _ & Habs & _ & Hcount).
  split.
  - apply Hcount; [discriminate | vm_compute; lia].
  - apply Habs. reflexivity.
Defined.

(** C6 as stated fails: a target that holds the block twice keeps both
    copies, and a block configured with trailing blank lines is not in the
    result verbatim. *)
Lemma always_include_under_failure_counterexample :
  count (strip block_xyz)
    (fst (llm_update block_xyz (Some agents_with_two_blocks) Raises)) = 2
  /\ contains block_with_blank_lines
       (fst (llm_update block_with_blank_lines (Some agents_closed) Raises))
     = false.
Proof. split; vm_compute; reflexivity. Qed.

(** C8 with every variable set and the exception [boom]. *)
Lemma mode_sensitive_propagation_witness :
  entry_point sample_env (lit "apply") (MainRaises boom)
  = ([lit "update_agents.py failed: boom"], Propagates boom)
  /\ entry_point sample_env (lit "suggest") (MainRaises boom)
     = ([lit "update_agents.py failed: boom"], Finishes).
Proof.
  destruct (mode_sensitive_propagation sample_env boom eq_refl)
    as (H1 & H2 & _).
  split; [exact H1 | exact H2].
Defined.

(** C10 on a target with content. *)
Lemma empty_replacement_keeps_document_witness :
  fst (llm_update block_xyz (Some agents_open)
         (Dict {| updated_content := Some (JString []); summary := None |}))
  = ensure_always_include_block agents_open block_xyz.
Proof.
  assert (H : agents_open <> []) by discriminate.
  exact (proj1 (empty_replacement_keeps_document block_xyz agents_open None H)).
Defined.

End AgentsFacts.

(** ** The context collector *)

Module CollectFacts.

Import Collect PyStrFacts TextFileFacts.

Lemma summary_out_length (fs : list changed_file) (cap : nat) :
  length (summary_out fs cap)
  = Nat.min cap (length fs) + (if cap <? length fs then 1 else 0).
Proof.
  unfold summary_out. rewrite length_app, length_map, length_firstn.
  now destruct (cap <? length fs).
Qed.

Lemma lit_line (s : string) :
  contains [LF] (lit s) = false -> Forall (fun c => c <> LF) (lit s).
Proof. apply absent_char. Qed.

Lemma int_str_line (z : Z) : Forall (fun c => c <> LF) (int_str z).
Proof.
  eapply Forall_impl; [|apply ChangelogFacts.int_str_chars].
  intros c H. simpl in H. unfold LF. lia.
Qed.

Lemma file_line_line (f : changed_file) :
  contains [LF] (status f) = false -> contains [LF] (filename f) = false ->
  Forall (fun c => c <> LF) (file_line f).
Proof.
  intros H1 H2. unfold file_line.
  repeat (apply Forall_app; split);
    try (apply lit_line; reflexivity); try apply int_str_line;
    now apply absent_char.
Qed.

Lemma more_line_line (k : nat) : Forall (fun c => c <> LF) (more_line k).
Proof.
  unfold more_line.
  repeat (apply Forall_app; split);
    try (apply lit_line; reflexivity); apply int_str_line.
Qed.

(** X1.  The text [summarize_files] returns for a non-empty file list whose
    statuses and file names hold no newline splits, at its newlines, into
    one line per file for the first [cap] files, in their order, followed,
    when files are left out, by the line "... and K more" with [K] the
    number left out: [cap + 1] lines at most.  For no files the text is
    empty. *)
Theorem summarize_files_lines (fs : list changed_file) (cap : nat) :
  (forall f, In f fs ->
             contains [LF] (status f) = false
             /\ contains [LF] (filename f) = false) ->
  (fs <> [] ->
   split_on LF (summarize_files fs cap)
   = map file_line (firstn cap fs)
     ++ (if cap <? length fs then [more_line (length fs - cap)] else [])
   /\ length (split_on LF (summarize_files fs cap)) <= cap + 1)
  /\ summarize_files [] cap = [].
Proof.
  intros H. split; [|now destruct cap].
  intros Hne.
  assert (E : split_on LF (summarize_files fs cap) = summary_out fs cap).
  { unfold summarize_files. apply split_on_join.
    - unfold summary_out. destruct fs as [|f fs']; [easy|].
      destruct cap; [discriminate | discriminate].
    - unfold summary_out. apply Forall_app. split.
      + apply Forall_forall. intros l Hl. apply in_map_iff in Hl as (f & <- & Hf).
        assert (Hin : In f fs).
        { rewrite <- (firstn_skipn cap fs). apply in_app_iff. now left. }
        destruct (H f Hin). now apply file_line_line.
      + destruct (cap <? length fs); constructor; [|constructor].
        apply more_line_line. }
  split; [exact E|].
  rewrite E, summary_out_length. destruct (cap <? length fs); lia.
Qed.

Lemma max_by_spec (key : str -> nat) (rest : list str) (best : str) :
  (max_by key best rest = best \/ In (max_by key best rest) rest)
  /\ key best <= key (max_by key best rest)
  /\ forall x, In x rest -> key x <= key (max_by key best rest).
Proof.
  revert best; induction rest as [|y rest IH]; intros best; simpl.
  - repeat split; [now left | lia | easy].
  - destruct (key best <? key y) eqn:E.
    + apply Nat.ltb_lt in E. destruct (IH y) as (H1 & H2 & H3).
      repeat split.
      * right. destruct H1 as [->|H1]; [now left | now right].
      * lia.
      * intros x [<-|Hx]; [exact H2 | now apply H3].
    + apply Nat.ltb_ge in E. destruct (IH best) as (H1 & H2 & H3).
      repeat split.
      * destruct H1 as [->|H1]; [now left | right; now right].
      * exact H2.
      * intros x [<-|Hx]; [lia | now apply H3].
Qed.

Lemma occurrences_pos (l : list str) (x : str) :
  0 < occurrences l x -> In x l.
Proof.
  unfold occurrences. induction l as [|y l IH]; simpl; [lia|].
  destruct (str_eqb x y) eqn:E.
  - apply str_eqb_eq in E. now left.
  - intros H. right. now apply IH.
Qed.

Lemma before_slash_no_slash (p : str) : has_slash (before_slash p) = false.
Proof.
  unfold has_slash. induction p as [|c p IH]; cbn [before_slash];
    [reflexivity|].
  destruct (char_eqb c SLASH) eqn:E; [reflexivity|].
  cbn [existsb]. unfold char_eqb in *. now rewrite N.eqb_sym, E.
Qed.

Lemma top_dirs_no_slash (changed : list str) (d : str) :
  In d (top_dirs changed) -> has_slash d = false.
Proof.
  unfold top_dirs. intros H. apply in_map_iff in H as (p & <- & _).
  apply before_slash_no_slash.
Qed.

Lemma scope_guess_in (order changed : list str) :
  iterates order (top_dirs changed) ->
  top_dirs changed <> [] ->
  In (scope_guess order changed) (top_dirs changed)
  /\ forall x, In x (top_dirs changed) ->
               occurrences (top_dirs changed) x
               <= occurrences (top_dirs changed) (scope_guess order changed).
Proof.
  intros Hit Hne. unfold scope_guess.
  destruct (top_dirs changed) as [|t ts] eqn:Et; [easy|].
  destruct order as [|x rest].
  - exfalso. apply (proj2 (Hit t)). now left.
  - destruct (max_by_spec (occurrences (t :: ts)) rest x) as (H1 & H2 & H3).
    split.
    + apply Hit. destruct H1 as [->|H1]; [now left | now right].
    + intros y Hy. apply Hit in Hy as [<-|Hy]; [exact H2 | now apply H3].
Qed.

(** X2.  Whatever the order in which [set(top_dirs)] is iterated, when some
    changed path has a directory part the scope guess is one of the
    top-level directories and none occurs more often among the changed
    paths. *)
Theorem scope_guess_most_frequent (order changed : list str) :
  iterates order (top_dirs changed) ->
  top_dirs changed <> [] ->
  In (scope_guess order changed) (top_dirs changed)
  /\ forall d, occurrences (top_dirs changed) d
               <= occurrences (top_dirs changed) (scope_guess order changed).
Proof.
  intros Hit Hne. destruct (scope_guess_in order changed Hit Hne) as [H1 H2].
  split; [exact H1|]. intros d.
  destruct (occurrences (top_dirs changed) d) as [|n] eqn:E; [lia|].
  rewrite <- E. apply H2. apply occurrences_pos. lia.
Qed.

(** X3.  The scope guess never holds a "/", and it is empty when no changed
    path has a directory part. *)
Theorem scope_guess_is_a_segment (order changed : list str) :
  iterates order (top_dirs changed) ->
  has_slash (scope_guess order changed) = false
  /\ (forallb (fun p => negb (has_slash p)) changed = true ->
      scope_guess order changed = []).
Proof.
  intros Hit. split.
  - destruct (top_dirs changed) as [|t ts] eqn:Et.
    + unfold scope_guess. now rewrite Et.
    + apply (top_dirs_no_slash changed).
      apply scope_guess_in; rewrite Et; [exact Hit | discriminate].
  - intros H. unfold scope_guess, top_dirs.
    replace (filter has_slash changed) with (@nil str); [reflexivity|].
    symmetry. clear Hit. induction changed as [|p l IH]; [reflexivity|].
    simpl in *. apply andb_true_iff in H as [Hp Hl].
    destruct (has_slash p); [discriminate | now apply IH].
Qed.

End CollectFacts.

(** ** Further facts about the changelog merge *)

Module ChangelogMore.

Import GenChangelog ChangelogNotions PyStrFacts TextFileFacts ReFacts ChangelogFacts.

Lemma contains_prefix_absent (p x s : str) :
  contains p s = false -> contains (p ++ x) s = false.
Proof.
  intros H. destruct (contains (p ++ x) s) eqn:E; [|reflexivity].
  apply contains_iff in E as (a & b & ->).
  rewrite <- H. symmetry. apply contains_iff.
  exists a, (x ++ b). now rewrite <- app_assoc.
Qed.

Lemma replace_contains_new (old new s : str) :
  old <> [] -> contains old s = true ->
  exists a b, replace old new s = a ++ new ++ b.
Proof.
  intros Ho H. apply contains_find in H as [i Hi].
  rewrite (replace_at_first old new s i Ho Hi). eauto.
Qed.

Lemma join_In (sep x : str) (l : list str) :
  In x l ->
  exists a b, join sep l = a ++ x ++ b
              /\ (b = [] \/ exists b', b = sep ++ b').
Proof.
  induction l as [|y l IH]; [easy|].
  intros [->|H].
  - destruct l as [|z l].
    + exists [], []. simpl. rewrite app_nil_r. now split; [|left].
    + exists [], (sep ++ join sep (z :: l)). split; [reflexivity|].
      right. now eexists.
  - destruct (IH H) as (a & b & E & Hb).
    destruct l as [|z l]; [easy|].
    exists (y ++ sep ++ a), b. split; [|exact Hb].
    change (join sep (y :: z :: l)) with (y ++ sep ++ join sep (z :: l)).
    rewrite E. now rewrite <- ?app_assoc.
Qed.

Section Script.

Variable unicode_alnum : char -> bool.

Local Abbreviation is_word := (Re.is_word unicode_alnum).
Local Abbreviation match_at := (Re.match_at unicode_alnum).
Local Abbreviation search_from := (Re.search_from unicode_alnum).

Lemma search_from_inv (pat : list Re.atom) (s : str) (prev : option char)
    (m : nat * nat) :
  search_from pat prev s = Some m ->
  exists i q, match_at pat q (skipn i s) <> None.
Proof.
  revert prev m; induction s as [|x s IH]; intros prev m;
    cbn [Re.search_from].
  - destruct (match_at pat prev []) eqn:E; [|discriminate].
    intros _. exists 0, prev. simpl. now rewrite E.
  - destruct (match_at pat prev (x :: s)) eqn:E.
    + intros _. exists 0, prev. simpl. now rewrite E.
    + destruct (search_from pat (Some x) s) as [m'|] eqn:E'; [|discriminate].
      intros _. destruct (IH _ _ E') as (i & q & H).
      now exists (S i), q.
Qed.

Lemma guard_match_inv (PR_NUMBER : Z) (q : option char) (t : str) :
  match_at (guard_pattern PR_NUMBER) q t <> None ->
  exists post,
    t = pr_ref PR_NUMBER ++ post
    /\ match post with [] => True | c :: _ => is_word c = false end.
Proof.
  unfold guard_pattern. rewrite match_escape.
  destruct (startswith (pr_ref PR_NUMBER) t) eqn:E; [|easy].
  apply startswith_split in E.
  set (post := skipn (length (pr_ref PR_NUMBER)) t) in *.
  change (Re.last_before q (pr_ref PR_NUMBER))
    with (Re.last_before (Some (N_of_ascii "#")) (int_str PR_NUMBER)).
  destruct (int_str_last PR_NUMBER (Some (N_of_ascii "#")))
    as (c & -> & H1 & H2).
  cbn [Re.match_at]. unfold Re.at_boundary. cbn [Re.word_before].
  rewrite (digit_is_word unicode_alnum c H1 H2).
  intros H. exists post. split; [exact E|].
  destruct post as [|d post']; [exact I|].
  cbn [hd_error Re.word_before] in H.
  destruct (is_word d); [now cbn in H | reflexivity].
Qed.

Lemma recorded_contains_token (PR_NUMBER : Z) (text : str) :
  already_recorded unicode_alnum PR_NUMBER text = true ->
  contains_token unicode_alnum PR_NUMBER text.
Proof.
  unfold already_recorded, Re.search.
  destruct (search_from (guard_pattern PR_NUMBER) None text) as [m|] eqn:E;
    [|discriminate].
  intros _. destruct (search_from_inv _ _ _ _ E) as (i & q & H).
  destruct (guard_match_inv PR_NUMBER q _ H) as (post & Hs & Hp).
  exists (firstn i text), post. split; [|exact Hp].
  now rewrite <- Hs, firstn_skipn.
Qed.

(** X4.  The idempotency test of line 127 holds exactly of the texts that
    contain ["#"] and the PR number followed by the end of the text or by a
    character that is not a word character: [#42] does not record PR 4, and
    [#4.] does. *)
Theorem already_recorded_iff (PR_NUMBER : Z) (text : str) :
  already_recorded unicode_alnum PR_NUMBER text = true
  <-> contains_token unicode_alnum PR_NUMBER text.
Proof.
  split; [apply recorded_contains_token | apply contains_token_recorded].
Qed.

Lemma section_header_marker (a b cat : str) :
  contains (LF :: section_header cat)
    (a ++ (UNRELEASED_LINE ++ [LF] ++ section_header cat ++ [LF]) ++ b)
  = true.
Proof.
  apply contains_iff. exists (a ++ UNRELEASED_LINE), (LF :: b).
  rewrite <- !app_assoc. cbn [app]. now rewrite <- ?app_assoc.
Qed.

Lemma ensure_section_present (txt header : str) :
  contains (LF :: section_header header) txt = true ->
  ensure_section txt header = txt.
Proof. intros H. unfold ensure_section. now rewrite H. Qed.

Lemma ensure_section_cases (txt header : str) :
  ensure_section txt header = txt
  \/ contains (LF :: section_header header) (ensure_section txt header)
     = true.
Proof.
  unfold ensure_section.
  destruct (contains (LF :: section_header header) txt) eqn:E; cbn [negb];
    [now left|].
  destruct (contains UNRELEASED_LINE txt) eqn:U.
  - right.
    destruct (replace_contains_new UNRELEASED_LINE
                (UNRELEASED_LINE ++ [LF] ++ section_header header ++ [LF])
                txt UNRELEASED_LINE_nonempty U) as (a & b & ->).
    apply section_header_marker.
  - left. apply (replace_absent _ _ _ UNRELEASED_LINE_nonempty U).
Qed.

(** X5.  [ensure_section] is idempotent: applied to its own result it
    changes nothing, so a second pass never creates a second header. *)
Theorem ensure_section_idempotent (txt header : str) :
  ensure_section (ensure_section txt header) header
  = ensure_section txt header.
Proof.
  destruct (ensure_section_cases txt header) as [H|H].
  - now rewrite !H.
  - now apply ensure_section_present.
Qed.

Lemma heading_after_search (cat s : str) (prev : option char) :
  heading_after_unreleased cat s = true ->
  exists i idx, search_from (section_pattern cat) prev s = Some (i, idx).
Proof.
  unfold heading_after_unreleased.
  destruct (find UNRELEASED s) as [i|] eqn:Hi; [|discriminate].
  intros H. apply contains_find in H as [j Hj].
  rewrite (search_section_found unicode_alnum cat s i j prev Hi Hj). eauto.
Qed.

(** Where the heading with its newline or a header after the heading is
    present, the text [merge] returns holds the insertion. *)
Lemma merge_contains_insertion (p : entry) (text : str) :
  contains UNRELEASED_LINE text
  || heading_after_unreleased (get_str (category p) (lit "Changed")) text
  = true ->
  exists a b, merge unicode_alnum p text = a ++ insertion p ++ b.
Proof.
  intros H. unfold merge.
  set (cat := get_str (category p) (lit "Changed")) in *.
  set (text1 := ensure_section text cat).
  unfold splice, Re.search.
  destruct (search_from (section_pattern cat) None text1) as [[i idx]|] eqn:S.
  - now exists (firstn idx text1), (skipn idx text1).
  - assert (Hh : heading_after_unreleased cat text1 = false).
    { destruct (heading_after_unreleased cat text1) eqn:E; [|reflexivity].
      destruct (heading_after_search cat text1 None E) as (i & idx & E').
      congruence. }
    assert (U : contains UNRELEASED_LINE text1 = true).
    { unfold text1, ensure_section in *.
      destruct (contains (LF :: section_header cat) text) eqn:M; cbn [negb] in *.
      - rewrite Hh, orb_false_r in H. exact H.
      - destruct (contains UNRELEASED_LINE text) eqn:U.
        + exfalso.
          destruct (replace_contains_new UNRELEASED_LINE
                      (UNRELEASED_LINE ++ [LF] ++ section_header cat ++ [LF])
                      text UNRELEASED_LINE_nonempty U) as (a & b & E).
          rewrite E in Hh.
          replace (a ++ (UNRELEASED_LINE ++ [LF] ++ section_header cat ++ [LF])
                   ++ b)
            with (a ++ UNRELEASED ++ [LF; LF] ++ section_header cat ++ LF :: b)
            in Hh
            by (unfold UNRELEASED_LINE; rewrite <- !app_assoc; cbn [app];
                now rewrite <- ?app_assoc).
          now rewrite heading_after_unreleased_intro in Hh.
        + rewrite (replace_absent _ _ _ UNRELEASED_LINE_nonempty U) in Hh.
          rewrite Hh in H. discriminate. }
    destruct (replace_contains_new UNRELEASED_LINE
                (UNRELEASED_LINE ++ [LF] ++ section_header cat
                 ++ insertion p ++ [LF])
                text1 UNRELEASED_LINE_nonempty U) as (a & b & ->).
    exists (a ++ UNRELEASED_LINE ++ [LF] ++ section_header cat), (LF :: b).
    rewrite <- !app_assoc. cbn [app]. now rewrite <- ?app_assoc.
Qed.

(** The insertion of a normalized entry holds the PR's reference, followed
    by [","] or [")"]. *)
Lemma insertion_token (PR_NUMBER : Z) (ctx : pr_context) (p : entry) :
  exists a c post,
    insertion (normalize PR_NUMBER ctx p)
    = a ++ pr_ref PR_NUMBER ++ c :: post
    /\ is_word c = false.
Proof.
  unfold insertion, refs_str. cbn [normalize references].
  set (refs := sorted_set _).
  assert (Hin : In (pr_ref PR_NUMBER) refs).
  { unfold refs. apply sorted_set_In, in_app_iff. right. now left. }
  destruct (join_In (lit ", ") _ _ Hin) as (a & b & -> & Hb).
  set (q := normalize PR_NUMBER ctx p).
  set (tail := if truthy_bool (breaking q) && truthy_str (migration q)
               then _ else _).
  destruct Hb as [->|[b' ->]].
  - exists (bullet q ++ lit " (" ++ a), (N_of_ascii ")"), (LF :: tail).
    split; [|reflexivity].
    rewrite <- !app_assoc. cbn [app lit]. now rewrite <- ?app_assoc.
  - exists (bullet q ++ lit " (" ++ a), (N_of_ascii ","),
           (lit " " ++ b' ++ lit ")" ++ [LF] ++ tail).
    split; [|reflexivity].
    rewrite <- !app_assoc. cbn [app lit]. now rewrite <- ?app_assoc.
Qed.

Lemma inserted_text_recorded (PR_NUMBER : Z) (ctx : pr_context) (p : entry)
    (x y : str) :
  already_recorded unicode_alnum PR_NUMBER
    (x ++ insertion (normalize PR_NUMBER ctx p) ++ y) = true.
Proof.
  apply contains_token_recorded.
  destruct (insertion_token PR_NUMBER ctx p) as (a & c & post & -> & Hc).
  exists (x ++ a), (c :: post ++ y). split; [|exact Hc].
  rewrite <- !app_assoc. cbn [app]. now rewrite <- ?app_assoc.
Qed.

(** X6.  A run that completes and had the place to insert (in the text as
    read: the heading with its newline, or a header of the category after
    the heading) has written a text that the guard recognizes: any later run
    for the same PR, whatever the context and the generator's answer, leaves
    that file as it is. *)
Theorem rerun_is_noop (PR_NUMBER : Z) (ctx : pr_context) (g : generation)
    (p : entry) (D D' : str) :
  let text := universal_newlines D in
  generate ctx g = Some p ->
  contains UNRELEASED_LINE text
  || heading_after_unreleased (get_str (category p) (lit "Changed")) text
  = true ->
  run unicode_alnum PR_NUMBER ctx g (Some D) = (Some D', Completed) ->
  forall ctx' g',
    fst (run unicode_alnum PR_NUMBER ctx' g' (Some D')) = Some D'.
Proof.
  intros text Hg Hplace Hrun ctx' g'.
  destruct (merge_contains_insertion (normalize PR_NUMBER ctx p) text Hplace)
    as (a & b & E).
  assert (HD' : D' = a ++ insertion (normalize PR_NUMBER ctx p) ++ b).
  { revert Hrun. unfold run. rewrite Hg. cbv zeta. fold text.
    destruct (already_recorded unicode_alnum PR_NUMBER text); [discriminate|].
    rewrite E. destruct (encodable _); [|discriminate].
    now intros [= <-]. }
  assert (T : contains_token unicode_alnum PR_NUMBER D').
  { apply recorded_contains_token. rewrite HD'.
    apply inserted_text_recorded. }
  apply token_survives_reading, contains_token_recorded in T.
  unfold run. destruct (generate ctx' g'); [|reflexivity].
  cbv zeta. now rewrite T.
Qed.

(** X7.  When the text as read passes the guard, has its one line
    [## [Unreleased]] at the first [## [Unreleased]] and no header line of
    the entry's category anywhere, the run creates the header right after
    that line, puts the bullet block under it and a blank line after it, and
    leaves the text before and after as it was read; when header or bullet
    block cannot be encoded the file is left empty and the run ends in the
    error of the write. *)
Theorem section_created_under_unreleased (PR_NUMBER : Z) (ctx : pr_context)
    (g : generation) (p : entry) (D a b : str) :
  let hdr := section_header (get_str (category p) (lit "Changed")) in
  let text := a ++ UNRELEASED_LINE ++ b in
  let ins := insertion (normalize PR_NUMBER ctx p) in
  generate ctx g = Some p ->
  universal_newlines D = text ->
  encodable D = true ->
  already_recorded unicode_alnum PR_NUMBER text = false ->
  find UNRELEASED text = Some (length a) ->
  contains UNRELEASED_LINE b = false ->
  contains (LF :: hdr) text = false ->
  run unicode_alnum PR_NUMBER ctx g (Some D)
  = if encodable (hdr ++ ins)
    then (Some (a ++ UNRELEASED_LINE ++ [LF] ++ hdr ++ ins ++ [LF] ++ b),
          Completed)
    else (Some [], WriteFails).
Proof.
  intros hdr text ins Hg HD He Hguard H1 H2 H3. unfold run. rewrite Hg.
  cbv zeta. rewrite HD, Hguard.
  pose proof (merge_creates_section unicode_alnum
                (normalize PR_NUMBER ctx p) a b) as M.
  cbv zeta in M. cbn [normalize category] in M.
  fold hdr in M. fold text in M. fold ins in M. rewrite (M H1 H2 H3).
  apply encodable_universal_newlines in He. rewrite HD in He.
  assert (E : encodable (a ++ UNRELEASED_LINE ++ [LF] ++ hdr ++ ins ++ [LF] ++ b)
              = encodable (hdr ++ ins)).
  { unfold text in He. rewrite !encodable_app in *.
    apply andb_true_iff in He as [Ha He].
    apply andb_true_iff in He as [Hu Hb].
    rewrite Ha, Hu, Hb. cbn [andb encodable forallb].
    now rewrite !andb_true_r. }
  now rewrite E.
Qed.

Lemma uint_str_head (d : Decimal.uint) :
  d <> Decimal.Nil ->
  exists c rest, uint_str d = c :: rest /\ starts_number c = true.
Proof. destruct d; intros H; try easy; now eexists _, _. Qed.

Lemma int_str_head (z : Z) :
  exists c rest, int_str z = c :: rest /\ starts_number c = true.
Proof.
  unfold int_str, Z.to_int. destruct z as [|q|q].
  - now eexists _, _.
  - apply uint_str_head, Unsigned.to_uint_nonnil.
  - now eexists _, _.
Qed.

Lemma no_reference_contains (PR_NUMBER : Z) (text : str) :
  no_reference text = true -> contains (pr_ref PR_NUMBER) text = false.
Proof.
  destruct (int_str_head PR_NUMBER) as (c0 & rest0 & E & Hc0).
  unfold pr_ref. rewrite E. cbn [lit app].
  induction text as [|c text IH]; [reflexivity|].
  cbn [no_reference]. intros H. apply andb_true_iff in H as [H1 H2].
  rewrite contains_unfold, (IH H2), orb_false_r.
  destruct text as [|d text']; cbn [startswith].
  - now rewrite andb_false_r.
  - destruct (char_eqb (N_of_ascii "#") c) eqn:Ec; [|reflexivity].
    destruct (char_eqb c0 d) eqn:Ed; [|reflexivity].
    apply char_eqb_eq in Ec, Ed. subst c d.
    change (char_eqb (N_of_ascii "#") 35%N) with true in H1.
    rewrite Hc0 in H1. discriminate.
Qed.

Lemma no_reference_not_recorded (PR_NUMBER : Z) (text : str) :
  no_reference text = true ->
  already_recorded unicode_alnum PR_NUMBER text = false.
Proof.
  intros H. destruct (already_recorded unicode_alnum PR_NUMBER text) eqn:E;
    [|reflexivity].
  apply recorded_contains_token in E as (pre & post & -> & _).
  rewrite <- (no_reference_contains PR_NUMBER _ H). symmetry.
  apply contains_iff. now exists pre, post.
Qed.

(** X8.  Skeleton synthesis.  When the changelog file does not exist, the
    run for any PR and any entry writes the skeleton followed by the header
    of the entry's category, the bullet block and two blank lines; when
    header or bullet block cannot be encoded, the file written with the
    skeleton is left empty and the run ends in the error of the write. *)
Theorem skeleton_synthesis (PR_NUMBER : Z) (ctx : pr_context)
    (g : generation) (p : entry) :
  let hdr := section_header (get_str (category p) (lit "Changed")) in
  let ins := insertion (normalize PR_NUMBER ctx p) in
  generate ctx g = Some p ->
  run unicode_alnum PR_NUMBER ctx g None
  = if encodable (hdr ++ ins)
    then (Some (skeleton ++ hdr ++ ins ++ [LF; LF]), Completed)
    else (Some [], WriteFails).
Proof.
  intros hdr ins Hg. unfold run. rewrite Hg. cbv zeta.
  change (universal_newlines skeleton) with skeleton.
  rewrite (no_reference_not_recorded PR_NUMBER skeleton eq_refl).
  pose proof (merge_creates_section unicode_alnum
                (normalize PR_NUMBER ctx p) skeleton_preamble [LF]) as M.
  cbv zeta in M. cbn [normalize category] in M.
  change (skeleton_preamble ++ UNRELEASED_LINE ++ [LF]) with skeleton in M.
  fold hdr in M. fold ins in M.
  rewrite M.
  - assert (E : encodable
                  (skeleton_preamble ++ UNRELEASED_LINE ++ [LF] ++ hdr ++ ins
                   ++ [LF] ++ [LF])
                = encodable (hdr ++ ins)).
    { rewrite !encodable_app.
      change (encodable skeleton_preamble) with true.
      change (encodable UNRELEASED_LINE) with true.
      cbn [andb encodable forallb]. now rewrite !andb_true_r. }
    rewrite E. destruct (encodable (hdr ++ ins)); [|reflexivity].
    change skeleton with (skeleton_preamble ++ UNRELEASED_LINE ++ [LF]).
    rewrite <- !app_assoc. reflexivity.
  - reflexivity.
  - reflexivity.
  - change (LF :: hdr)
      with ((LF :: lit "### ")
            ++ get_str (category p) (lit "Changed") ++ [LF]).
    now apply contains_prefix_absent.
Qed.

(** *** Nothing of the text is removed *)

Lemma subseq_refl (s : str) : subseq s s.
Proof. induction s; now constructor. Qed.

Lemma subseq_app (a a' b b' : str) :
  subseq a a' -> subseq b b' -> subseq (a ++ b) (a' ++ b').
Proof.
  intros H1 H2. induction H1; simpl; [exact H2 | |]; now constructor.
Qed.

Lemma subseq_nil_l (s : str) : subseq [] s.
Proof. induction s; now constructor. Qed.

Lemma subseq_insert (a x b : str) : subseq (a ++ b) (a ++ x ++ b).
Proof.
  apply subseq_app; [apply subseq_refl|].
  rewrite <- (app_nil_l b) at 1.
  apply subseq_app; [apply subseq_nil_l | apply subseq_refl].
Qed.

Lemma subseq_trans (s t u : str) : subseq s t -> subseq t u -> subseq s u.
Proof.
  intros H1 H2. revert s H1.
  induction H2 as [|c t u H2 IH|c t u H2 IH]; intros s H1.
  - exact H1.
  - inversion H1; subst; constructor; auto.
  - constructor. auto.
Qed.

(** [replace] by a text that starts with the text replaced keeps all. *)
Lemma replace_extends (old e : str) (n : nat) (s : str) :
  old <> [] -> length s <= n -> subseq s (replace old (old ++ e) s).
Proof.
  intros Ho. revert s; induction n as [|n IH]; intros s Hn.
  - destruct s; [|simpl in Hn; lia].
    destruct old; [easy | constructor].
  - destruct (contains old s) eqn:C.
    + apply contains_find in C as [i Hi].
      rewrite (replace_at_first old (old ++ e) s i Ho Hi).
      rewrite (find_split old s i Hi) at 1.
      apply subseq_app; [apply subseq_refl|].
      rewrite <- app_assoc.
      apply subseq_app; [apply subseq_refl|].
      rewrite <- (app_nil_l (skipn _ s)) at 1.
      apply subseq_app; [apply subseq_nil_l|].
      apply IH. rewrite length_skipn.
      destruct old; [easy | simpl; lia].
    + rewrite (replace_absent old _ s Ho C). apply subseq_refl.
Qed.

Lemma merge_subseq (p : entry) (text : str) :
  subseq text (merge unicode_alnum p text).
Proof.
  unfold merge.
  set (cat := get_str (category p) (lit "Changed")).
  apply (subseq_trans text (ensure_section text cat)).
  - unfold ensure_section. destruct (negb _); [|apply subseq_refl].
    apply (replace_extends _ _ (length text));
      [apply UNRELEASED_LINE_nonempty | lia].
  - set (text1 := ensure_section text cat).
    unfold splice.
    destruct (Re.search unicode_alnum (section_pattern cat) text1)
      as [[i idx]|].
    + rewrite <- (firstn_skipn idx text1) at 1. apply subseq_insert.
    + apply (replace_extends _ _ (length text1));
        [apply UNRELEASED_LINE_nonempty | lia].
Qed.

(** X9.  A run that writes never removes or reorders anything of the text
    it read: the file afterwards holds the text as read (the file's text
    with [\r\n] and [\r] turned into [\n]) with, at most, characters
    inserted.  A run that ends at the guard or in the [AttributeError]
    leaves the file as it was, and one that ends in the error of the write
    leaves it empty. *)
Theorem run_only_inserts (PR_NUMBER : Z) (ctx : pr_context) (g : generation)
    (D : str) :
  exists D',
    fst (run unicode_alnum PR_NUMBER ctx g (Some D)) = Some D'
    /\ match snd (run unicode_alnum PR_NUMBER ctx g (Some D)) with
       | Completed => subseq (universal_newlines D) D'
       | WriteFails => D' = []
       | ExitZero | Uncaught => D' = D
       end.
Proof.
  unfold run. destruct (generate ctx g) as [p|]; cbv zeta.
  - destruct (already_recorded unicode_alnum PR_NUMBER _).
    + now exists D.
    + destruct (encodable _).
      * eexists. split; [reflexivity | apply merge_subseq].
      * now exists [].
  - now exists D.
Qed.

End Script.


Lemma str_lt_irrefl (a : str) : ~ str_lt a a.
Proof.
  unfold str_lt. induction a as [|x a IH]; [easy|].
  rewrite str_ltb_cons. intros [H|[_ H]]; [lia | auto].
Qed.

Lemma sorted_NoDup (l : list str) : StronglySorted str_lt l -> NoDup l.
Proof.
  induction 1 as [|a l Hl IH Ha]; constructor; [|exact IH].
  intros Hin. apply (proj1 (Forall_forall _ _) Ha) in Hin.
  now apply str_lt_irrefl in Hin.
Qed.

(** X10.  Lines 106-108: the references written are the model's references
    together with [#<PR_NUMBER>] and [@<author>], which are always there,
    each reference once, in increasing code-point order; a missing
    [references] key counts as the empty list. *)
Theorem references_normalized (PR_NUMBER : Z) (ctx : pr_context) (p : entry) :
  exists refs,
    references (normalize PR_NUMBER ctx p) = Some refs
    /\ StronglySorted str_lt refs
    /\ NoDup refs
    /\ In (pr_ref PR_NUMBER) refs
    /\ In (author_ref ctx) refs
    /\ forall y, In y refs <->
                 In y (match references p with Some l => l | None => [] end)
                 \/ y = pr_ref PR_NUMBER \/ y = author_ref ctx.
Proof.
  eexists. split; [reflexivity|].
  assert (Hall : forall y,
             In y (sorted_set
                     ((match references p with Some l => l | None => [] end)
                      ++ [pr_ref PR_NUMBER; author_ref ctx]))
             <-> In y (match references p with Some l => l | None => [] end)
                 \/ y = pr_ref PR_NUMBER \/ y = author_ref ctx).
  { intros y. rewrite sorted_set_In, in_app_iff. simpl. intuition. }
  split; [apply sorted_set_sorted|].
  split; [apply sorted_NoDup, sorted_set_sorted|].
  split; [apply Hall; tauto|].
  split; [apply Hall; tauto | exact Hall].
Qed.

End ChangelogMore.

(** ** The targets of the agents update *)

Module TargetsFacts.

Import Collect UpdateAgents AgentsPipeline PyStrFacts.

Lemma path_eqb_eq (a b : path) : path_eqb a b = true <-> a = b.
Proof.
  revert b; induction a as [|x a IH]; intros [|y b]; simpl; try easy.
  rewrite andb_true_iff, str_eqb_eq, IH.
  split; [now intros [-> ->] | now intros [= -> ->]].
Qed.

Lemma path_eqb_neq (a b : path) : path_eqb a b = false <-> a <> b.
Proof.
  rewrite <- path_eqb_eq. destruct (path_eqb a b); split; congruence.
Qed.

Lemma setdefault_attached (m : mapping) (k : path) (v : str) (key : path)
    (rel : str) :
  attached (setdefault_append m k v) key rel
  <-> attached m key rel \/ (key = k /\ rel = v).
Proof.
  unfold attached. induction m as [|[k' l] m IH]; simpl.
  - split.
    + intros (l & [[= <- <-]|[]] & [<-|[]]). now right.
    + intros [(l & [] & _)|[-> ->]]. exists [v]. split; now left.
  - destruct (path_eqb k k') eqn:E.
    + apply path_eqb_eq in E; subst k'. split.
      * intros (l0 & [[= <- <-]|H] & Hin).
        -- apply in_app_iff in Hin as [Hin|[<-|[]]].
           ++ left. exists l. split; [now left | exact Hin].
           ++ now right.
        -- left. exists l0. split; [now right | exact Hin].
      * intros [(l0 & [[= <- <-]|H] & Hin)|[-> ->]].
        -- exists (l ++ [v]). split; [now left|]. apply in_app_iff. now left.
        -- exists l0. split; [now right | exact Hin].
        -- exists (l ++ [v]). split; [now left|]. apply in_app_iff.
           right. now left.
    + split.
      * intros (l0 & [[= <- <-]|H] & Hin).
        -- left. exists l. split; [now left | exact Hin].
        -- destruct (proj1 IH (ex_intro _ l0 (conj H Hin))) as [(l1 & H1 & H2)|H1].
           ++ left. exists l1. split; [now right | exact H2].
           ++ now right.
      * intros [(l0 & [[= <- <-]|H] & Hin)|H].
        -- exists l. split; [now left | exact Hin].
        -- destruct (proj2 IH (or_introl (ex_intro _ l0 (conj H Hin))))
             as (l1 & H1 & H2).
           exists l1. split; [now right | exact H2].
        -- destruct (proj2 IH (or_intror H)) as (l1 & H1 & H2).
           exists l1. split; [now right | exact H2].
Qed.

Lemma setdefault_keys (m : mapping) (k : path) (v : str) :
  keys (setdefault_append m k v)
  = if existsb (path_eqb k) (keys m) then keys m else keys m ++ [k].
Proof.
  induction m as [|[k' l] m IH]; simpl; [reflexivity|].
  destruct (path_eqb k k'); simpl; [reflexivity|].
  rewrite IH. now destruct (existsb (path_eqb k) (keys m)).
Qed.

Lemma setdefault_NoDup (m : mapping) (k : path) (v : str) :
  NoDup (keys m) -> NoDup (keys (setdefault_append m k v)).
Proof.
  intros H. rewrite setdefault_keys.
  destruct (existsb (path_eqb k) (keys m)) eqn:E; [exact H|].
  apply NoDup_app; [exact H | repeat constructor; easy |].
  intros x Hx [Hk|[]]. subst x.
  assert (existsb (path_eqb k) (keys m) = true); [|congruence].
  apply existsb_exists. exists k. split; [exact Hx | now apply path_eqb_eq].
Qed.

Lemma setdefault_nonempty (m : mapping) (k : path) (v : str) :
  Forall (fun kv => snd kv <> []) m ->
  Forall (fun kv => snd kv <> []) (setdefault_append m k v).
Proof.
  induction 1 as [|[k' l] m Hl Hm IH]; simpl.
  - now repeat constructor.
  - destruct (path_eqb k k'); constructor; auto.
    simpl. now destruct l.
Qed.

Section Targets.

Variable root : path.
Variable resolve_in_root : str -> path.
Variable resolve_parent_in_root : str -> path.
Variable fs : filesystem.

Local Abbreviation dirs_of := (dirs_of resolve_in_root resolve_parent_in_root fs).
Local Abbreviation visit_file :=
  (visit_file root resolve_in_root resolve_parent_in_root fs).
Local Abbreviation targets :=
  (targets root resolve_in_root resolve_parent_in_root fs).
Local Abbreviation map_changed :=
  (map_changed_paths_to_agents root resolve_in_root resolve_parent_in_root fs).

Local Abbreviation candidates := (candidates fs).

Lemma visit_dirs_spec (rel : str) (dirs : list path) (m : mapping)
    (f : bool) :
  let r := visit_dirs fs rel dirs m f in
  (forall key x, attached (fst r) key x
                 <-> attached m key x \/ (x = rel /\ In key (candidates dirs)))
  /\ snd r = (f || match candidates dirs with [] => false | _ => true end)
  /\ (well_kept m -> well_kept (fst r)).
Proof.
  revert m f; induction dirs as [|d dirs IH]; intros m f; cbn [visit_dirs].
  - cbn. split; [intros; tauto|]. split; [now rewrite orb_false_r | easy].
  - unfold AgentsPipeline.candidates. cbn [map filter].
    destruct (exists_ fs (child d AGENTS_MD)) eqn:E.
    + destruct (IH (setdefault_append m (child d AGENTS_MD) rel) true)
        as (H1 & H2 & H3).
      split; [intros key x; split | split].
      * intros H. apply H1 in H as [H|H].
        -- apply setdefault_attached in H as [H|[-> ->]];
             [now left | right; split; [reflexivity | now left]].
        -- right. split; [tauto | right; tauto].
      * intros [H|[-> [<-|H]]]; apply H1.
        -- left. apply setdefault_attached. now left.
        -- left. apply setdefault_attached. now right.
        -- right. now split.
      * rewrite H2. now rewrite orb_true_r.
      * intros [Hk Hn]. apply H3.
        split; [now apply setdefault_NoDup | now apply setdefault_nonempty].
    + apply IH.
Qed.

Lemma targets_candidates (rel : str) (key : path) :
  In key (targets rel)
  <-> In key (candidates (dirs_of rel))
      \/ (candidates (dirs_of rel) = [] /\ key = child root AGENTS_MD).
Proof.
  unfold targets. fold (candidates (dirs_of rel)).
  destruct (candidates (dirs_of rel)) as [|c cs]; simpl.
  - split; [intros [<-|[]]; now right | intros [[]|[_ ->]]; now left].
  - split; [now left | intros [H|[H _]]; [exact H | discriminate]].
Qed.

Lemma visit_file_spec (m : mapping) (rel : str) :
  (forall key x, attached (visit_file m rel) key x
                 <-> attached m key x \/ (x = rel /\ In key (targets rel)))
  /\ (well_kept m -> well_kept (visit_file m rel)).
Proof.
  unfold AgentsPipeline.visit_file.
  destruct (visit_dirs_spec rel (dirs_of rel) m false) as (H1 & H2 & H3).
  destruct (visit_dirs fs rel (dirs_of rel) m false) as [m' found] eqn:E.
  cbn [fst snd] in *. cbn [orb] in H2.
  destruct found.
  - split; [|exact H3]. intros key x. rewrite H1, targets_candidates.
    destruct (candidates (dirs_of rel)); [discriminate|]. intuition congruence.
  - split.
    + intros key x. rewrite setdefault_attached, H1, targets_candidates.
      destruct (candidates (dirs_of rel)); [|discriminate].
      simpl. intuition congruence.
    + intros Hm. destruct (H3 Hm) as [Hk Hn].
      split; [now apply setdefault_NoDup | now apply setdefault_nonempty].
Qed.

Lemma fold_visit_spec (l : list str) (m : mapping) :
  (forall key x, attached (fold_left visit_file l m) key x
                 <-> attached m key x \/ (In x l /\ In key (targets x)))
  /\ (well_kept m -> well_kept (fold_left visit_file l m)).
Proof.
  revert m; induction l as [|rel l IH]; intros m; cbn [fold_left].
  - split; [|easy]. intros key x. simpl. tauto.
  - destruct (IH (visit_file m rel)) as [H1 H2].
    destruct (visit_file_spec m rel) as [H3 H4].
    split; [|auto]. intros key x. rewrite H1, H3. simpl.
    intuition congruence.
Qed.

Lemma attached_iff (files : list changed_file) (key : path) (rel : str) :
  attached (map_changed files) key rel
  <-> In rel (changed files) /\ In key (targets rel).
Proof.
  unfold map_changed_paths_to_agents.
  destruct (fold_visit_spec (changed files) []) as [H _].
  rewrite H. unfold attached. simpl. split; [|tauto].
  now intros [(l & [] & _)|H'].
Qed.


Lemma mapping_well_kept (files : list changed_file) :
  well_kept (map_changed files).
Proof.
  destruct (fold_visit_spec (changed files) []) as [_ H].
  apply H. split; constructor.
Qed.



(** X11.  [map_changed_paths_to_agents] attaches a changed path to exactly
    these [AGENTS.md] files: every one that exists in the directory of the
    path or in any directory above it, up to the top of the file system,
    and, when there is none, the [AGENTS.md] of the root, existing or not. *)
Theorem mapping_attaches_to_targets (files : list changed_file)
    (key : path) (rel : str) :
  attached (map_changed files) key rel
  <-> In rel (changed files)
      /\ (In key (candidates (dirs_of rel))
          \/ (candidates (dirs_of rel) = []
              /\ key = child root AGENTS_MD)).
Proof.
  unfold map_changed_paths_to_agents.
  destruct (fold_visit_spec (changed files) []) as [H _].
  rewrite H, targets_candidates. unfold attached. simpl.
  split; [|tauto].
  now intros [(l & [] & _)|H'].
Qed.

Lemma targets_nonempty (rel : str) : targets rel <> [].
Proof.
  unfold AgentsPipeline.targets. now destruct (filter _ _).
Qed.

(** X12.  The mapping keeps the dict's shape and loses no file: its keys
    are distinct, no key has an empty list, every changed path is in the
    list of some key, and so for a PR with changed files the mapping is not
    empty (the second early return of [main] is never taken). *)
Theorem mapping_covers_every_file (files : list changed_file) :
  NoDup (keys (map_changed files))
  /\ Forall (fun kv => snd kv <> []) (map_changed files)
  /\ (forall rel, In rel (changed files) ->
                  exists key, attached (map_changed files) key rel)
  /\ (files <> [] -> map_changed files <> []).
Proof.
  destruct (fold_visit_spec (changed files) []) as [_ H2].
  destruct H2 as [Hk Hn]; [split; constructor|].
  assert (Hcov : forall rel, In rel (changed files) ->
                   exists key, attached (map_changed files) key rel).
  { intros rel Hrel. destruct (targets rel) as [|key ks] eqn:E.
    - now apply targets_nonempty in E.
    - exists key. apply attached_iff. split; [exact Hrel|].
      rewrite E. now left. }
  repeat split; try assumption.
  intros Hf Hm. destruct files as [|f files]; [easy|].
  destruct (Hcov (filename f)) as (key & l & Hin & _); [now left|].
  rewrite Hm in Hin. exact Hin.
Qed.

End Targets.

End TargetsFacts.

(** ** [main] of the agents update *)

Module MainFacts.

Import Collect UpdateAgents AgentsPipeline PyStrFacts AgentsFacts TargetsFacts.

Lemma path_eqb_refl (p : path) : path_eqb p p = true.
Proof. now apply path_eqb_eq. Qed.

Lemma write_same (fs : filesystem) (p : path) (n : node) :
  write fs p n p = Some n.
Proof. unfold write. now rewrite path_eqb_refl. Qed.

Lemma write_other (fs : filesystem) (p q : path) (n : node) :
  q <> p -> write fs p n q = fs q.
Proof.
  intros H. unfold write. apply path_eqb_neq in H. now rewrite H.
Qed.





Section Main.

Variable root : path.
Variable resolve_in_root : str -> path.
Variable resolve_parent_in_root : str -> path.
Variable MODE : str.
Variable ALWAYS_INCLUDE : str.
Variable reply : path -> generation.
Variable os_error : path -> exn.
Variable not_relative : path -> exn.
Variable json_dumps : list report_entry -> str.

Local Abbreviation mkdir_rev := (mkdir_rev os_error).
Local Abbreviation mkdir_parents := (mkdir_parents os_error).
Local Abbreviation write_text := (write_text os_error).
Local Abbreviation relative_to_root := (relative_to_root root not_relative).
Local Abbreviation map_changed :=
  (map_changed_paths_to_agents root resolve_in_root resolve_parent_in_root).
Local Abbreviation step_result :=
  (step_result root MODE ALWAYS_INCLUDE not_relative).
Local Abbreviation loop_result :=
  (loop_result root MODE ALWAYS_INCLUDE not_relative).
Local Abbreviation entry_of := (entry_of root MODE ALWAYS_INCLUDE not_relative).

(** [mkdir] keeps what exists and adds directories only. *)
Lemma mkdir_rev_keeps (rd : list str) (fs fs' : filesystem) :
  mkdir_rev fs rd = inr fs' ->
  forall q, fs' q = fs q \/ (fs q = None /\ fs' q = Some Dir).
Proof.
  revert fs'; induction rd as [|x rd IH]; intros fs'; cbn [AgentsPipeline.mkdir_rev].
  - destruct (fs (rev [])) as [[c|]|]; try discriminate.
    intros [= <-] q. now left.
  - destruct (fs (rev (x :: rd))) as [[c|]|] eqn:E; try discriminate.
    + intros [= <-] q. now left.
    + destruct (fs (rev rd)) as [[c|]|] eqn:E'; try discriminate;
        (destruct (mkdir_rev fs rd) as [e|fs1] eqn:M; [discriminate|];
         intros [= <-] q;
         destruct (path_eqb q (rev (x :: rd))) eqn:Q;
         [ apply path_eqb_eq in Q; subst q; right;
           split; [exact E | apply write_same]
         | apply path_eqb_neq in Q; rewrite (write_other _ _ _ _ Q);
           now apply IH ]).
Qed.

Lemma write_text_spec (fs fs' : filesystem) (p : path) (c : str) :
  write_text fs p c = inr fs' ->
  fs' p = Some (File c) /\ forall q, q <> p -> fs' q = fs q.
Proof.
  unfold AgentsPipeline.write_text.
  destruct (is_dir fs p); [discriminate|].
  destruct (is_dir fs (parent p)); [|discriminate].
  intros [= <-]. split; [apply write_same | intros q; apply write_other].
Qed.

(** Whatever the generator does, the content [llm_update] returns holds the
    stripped block. *)
Lemma llm_update_contains (on_disk : option str) (g : generation) :
  contains (strip ALWAYS_INCLUDE) (fst (llm_update ALWAYS_INCLUDE on_disk g))
  = true.
Proof.
  unfold llm_update.
  destruct g as [| |d]; [| |destruct (updated_content d)];
    cbn [fst]; apply ensure_contains.
Qed.

Section Posting.

Variable post_raises : str -> bool.

Local Abbreviation try_post := (try_post post_raises).
Local Abbreviation step :=
  (step root MODE ALWAYS_INCLUDE reply post_raises os_error not_relative).
Local Abbreviation loop :=
  (loop root MODE ALWAYS_INCLUDE reply post_raises os_error not_relative).
Local Abbreviation main :=
  (main root resolve_in_root resolve_parent_in_root MODE ALWAYS_INCLUDE
     reply post_raises os_error not_relative json_dumps).

Lemma try_post_disk (w : world) (body : str) :
  disk (try_post w body) = disk w /\ stdout (try_post w body) = stdout w.
Proof. unfold AgentsPipeline.try_post. now destruct (post_raises body). Qed.

Lemma step_spec (w : world) (a : bool) (r : list report_entry) (key : path)
    (w' : world) (res : progress) :
  step w a r key = (w', res) -> step_result w a r key w' res.
Proof.
  unfold AgentsPipeline.step, AgentsPipeline.step_result.
  destruct (read_if_exists os_error (disk w) key) as [e|on_disk];
    [intros [= <- <-]; repeat split; auto|].
  pose proof (llm_update_contains on_disk (reply key)) as Hblock.
  destruct (llm_update ALWAYS_INCLUDE on_disk (reply key)) as [u rat].
  cbn [fst] in Hblock.
  destruct (str_eqb (strip u) (strip _)).
  - destruct (relative_to_root key) as [e|rel];
      intros [= <- <-]; repeat split; auto.
    eexists. repeat split; cbn; auto; try discriminate.
    now rewrite orb_false_r.
  - destruct (relative_to_root key) as [e|rel];
      [intros [= <- <-]; repeat split; auto|].
    destruct (str_eqb MODE (lit "apply")) eqn:M.
    + destruct (mkdir_parents (disk w) (parent key)) as [e|fs1] eqn:K;
        [intros [= <- <-]; repeat split; auto|].
      pose proof (mkdir_rev_keeps _ _ _ K) as Hk.
      destruct (write_text fs1 key u) as [e|fs2] eqn:Wt.
      * intros [= <- <-]. repeat split; auto; try discriminate.
      * destruct (write_text_spec _ _ _ _ Wt) as [W1 W2].
        intros [= <- <-].
        destruct (try_post_disk (with_disk w fs2) (notice rel rat)) as [-> ->].
        repeat split; auto; try discriminate.
        -- intros q Hq. cbn. rewrite (W2 q Hq). apply Hk.
        -- eexists. repeat split; cbn; auto; try discriminate.
           ++ now rewrite orb_true_r.
           ++ intros _ _. now exists u.
    + intros [= <- <-].
      destruct (try_post_disk w (suggestion rel u rat)) as [-> ->].
      repeat split; auto.
      eexists. repeat split; cbn; auto; try discriminate.
      now rewrite orb_false_r.
Qed.

Lemma loop_spec (items : mapping) :
  NoDup (keys items) ->
  forall (w : world) (a : bool) (r : list report_entry) (w' : world)
         (res : progress),
    loop items w a r = (w', res) -> loop_result items w a r w' res.
Proof.
  induction items as [|[key imp] items IH]; intros Hnd w a r w' res;
    cbn [AgentsPipeline.loop].
  - intros [= <- <-]. unfold AgentsPipeline.loop_result.
    repeat split; auto.
    exists []. rewrite app_nil_r.
    split; [reflexivity|]. split; [constructor|].
    split; [cbn; now rewrite orb_false_r | reflexivity].
  - inversion Hnd as [|k ks Hnotin Hnd']; subst.
    destruct (step w a r key) as [w1 res1] eqn:S.
    apply step_spec in S as (S1 & S2 & S3 & S4).
    destruct res1 as [e|[a1 r1]].
    + intros [= <- <-]. unfold AgentsPipeline.loop_result.
      repeat split; auto.
      intros q Hq. apply S3. intros ->. apply Hq. now left.
    + intros L. apply (IH Hnd') in L as (L1 & L2 & L3 & L4).
      unfold AgentsPipeline.loop_result.
      split; [congruence|]. split; [intros M; now rewrite L2, S2|].
      split.
      * intros q Hq.
        assert (Hq1 : q <> key) by (intros ->; apply Hq; now left).
        assert (Hq2 : ~ In q (keys items)) by (intros H; apply Hq; now right).
        destruct (S3 q Hq1) as [E1|[E1 E1']], (L3 q Hq2) as [E2|[E2 E2']].
        -- left. congruence.
        -- right. split; congruence.
        -- right. split; congruence.
        -- congruence.
      * destruct res as [e|[a' r']]; [exact I|].
        destruct L4 as (es & -> & F & -> & Hsame).
        destruct S4 as (e & -> & Rel & -> & Hun & Hch).
        exists (e :: es). split; [now rewrite <- app_assoc|].
        split; [|split].
        -- constructor; [|exact F]. split; [exact Rel|].
           intros C M. destruct (Hch C M) as (c & Hc & Hb).
           exists c. split; [|exact Hb]. cbn [fst] in *.
           destruct (L3 key Hnotin) as [E|[E _]]; congruence.
        -- cbn [existsb].
           destruct a, (report_changed e), (existsb report_changed es),
             (str_eqb MODE (lit "apply")); reflexivity.
        -- cbn [existsb]. intros H. apply orb_false_iff in H as [H1 H2].
           now rewrite (Hsame H2), (Hun H1).
Qed.


(** X13.  In any mode but [apply], [main] writes nothing but the report:
    however it ends, every other path holds afterwards what it held before
    (no [AGENTS.md] is touched, no directory made, no sentinel left). *)
Theorem suggest_mode_writes_only_the_report (fetched : exn + list changed_file)
    (w : world) (q : path) :
  str_eqb MODE (lit "apply") = false ->
  q <> child root REPORT_NAME ->
  disk (fst (main fetched w)) q = disk w q.
Proof.
  intros M Hq. unfold AgentsPipeline.main.
  destruct fetched as [e|[|f files]]; try reflexivity.
  pose proof (mapping_well_kept root resolve_in_root resolve_parent_in_root
                (disk w) (f :: files)) as [Hnd _].
  destruct (map_changed (disk w) (f :: files)) as [|it items];
    [reflexivity|].
  destruct (loop (it :: items) w false []) as [w1 res] eqn:L.
  apply (loop_spec _ Hnd) in L as (_ & L2 & _ & L4).
  specialize (L2 M).
  destruct res as [e|[a report]]; cbn [fst]; [now rewrite L2|].
  destruct L4 as (es & _ & _ & -> & _). rewrite M, andb_false_r. cbn [orb].
  destruct (write_text (disk w1) (child root REPORT_NAME) (json_dumps report))
    as [e|fs2] eqn:Wt; cbn [fst]; [now rewrite L2|].
  apply write_text_spec in Wt as [_ W]. cbn. now rewrite (W q Hq), L2.
Qed.





(** X16.  A target that is not below the root makes [main] raise: when the
    mapping has a key of which the root is no prefix (an [AGENTS.md] found
    above the workspace), the run does not return. *)
Theorem target_outside_root_raises (files : list changed_file) (w : world)
    (key : path) :
  In key (keys (map_changed (disk w) files)) ->
  path_eqb (firstn (length root) key) root = false ->
  exists w' e, main (inr files) w = (w', MainRaises e).
Proof.
  intros Hk Hout.
  assert (Hstep : forall w0 a r, exists w1 e, step w0 a r key = (w1, inl e)).
  { intros w0 a r. unfold AgentsPipeline.step.
    destruct (read_if_exists os_error (disk w0) key); [now eexists _, _|].
    destruct (llm_update _ _ _) as [u rat].
    unfold AgentsPipeline.relative_to_root. rewrite Hout.
    destruct (str_eqb _ _); now eexists _, _. }
  assert (Hloop : forall items, In key (keys items) ->
            forall w0 a r, exists w1 e, loop items w0 a r = (w1, inl e)).
  { induction items as [|[k imp] items IH]; [easy|].
    intros [Hin|Hin] w0 a r; cbn [AgentsPipeline.loop].
    - cbn [fst] in Hin. subst k.
      destruct (Hstep w0 a r) as (w1 & e & ->). now eexists _, _.
    - destruct (step w0 a r k) as [w1 [e|[a1 r1]]]; [now eexists _, _|].
      now apply IH. }
  unfold AgentsPipeline.main.
  destruct files as [|f files]; [easy|].
  destruct (map_changed (disk w) (f :: files)) as [|it items]; [easy|].
  destruct (Hloop (it :: items) Hk w false []) as (w1 & e & ->).
  now eexists _, _.
Qed.


End Posting.

(** Two worlds with the same files and the same output. *)
Lemma step_agree (pr1 pr2 : str -> bool) (w1 w2 : world) (a : bool)
    (r : list report_entry) (key : path) :
  disk w1 = disk w2 -> stdout w1 = stdout w2 ->
  let r1 := step root MODE ALWAYS_INCLUDE reply pr1 os_error not_relative
              w1 a r key in
  let r2 := step root MODE ALWAYS_INCLUDE reply pr2 os_error not_relative
              w2 a r key in
  snd r1 = snd r2
  /\ disk (fst r1) = disk (fst r2) /\ stdout (fst r1) = stdout (fst r2).
Proof.
  intros Hd Hs. unfold AgentsPipeline.step. rewrite Hd.
  destruct (read_if_exists os_error (disk w2) key); [now cbn|].
  destruct (llm_update _ _ _) as [u rat].
  destruct (str_eqb (strip u) _);
    (destruct (relative_to_root key); [now cbn|]); [now cbn|].
  destruct (str_eqb MODE (lit "apply")).
  - destruct (mkdir_parents (disk w2) (parent key)); [now cbn|].
    destruct (write_text _ key u); [now cbn|]. cbn [fst snd].
    destruct (try_post_disk pr1 (with_disk w1 f0) (notice s rat)) as [-> ->].
    destruct (try_post_disk pr2 (with_disk w2 f0) (notice s rat)) as [-> ->].
    now cbn.
  - cbn [fst snd].
    destruct (try_post_disk pr1 w1 (suggestion s u rat)) as [-> ->].
    destruct (try_post_disk pr2 w2 (suggestion s u rat)) as [-> ->].
    now cbn.
Qed.

Lemma loop_agree (pr1 pr2 : str -> bool) (items : mapping) :
  forall (w1 w2 : world) (a : bool) (r : list report_entry),
    disk w1 = disk w2 -> stdout w1 = stdout w2 ->
    let r1 := loop root MODE ALWAYS_INCLUDE reply pr1 os_error not_relative
                items w1 a r in
    let r2 := loop root MODE ALWAYS_INCLUDE reply pr2 os_error not_relative
                items w2 a r in
    snd r1 = snd r2
    /\ disk (fst r1) = disk (fst r2) /\ stdout (fst r1) = stdout (fst r2).
Proof.
  induction items as [|[key imp] items IH]; intros w1 w2 a r Hd Hs;
    cbn [AgentsPipeline.loop]; [now cbn|].
  destruct (step_agree pr1 pr2 w1 w2 a r key Hd Hs) as (E & Ed & Es).
  destruct (step _ _ _ _ pr1 _ _ w1 a r key) as [v1 res1].
  destruct (step _ _ _ _ pr2 _ _ w2 a r key) as [v2 res2].
  cbn [fst snd] in *. subst res2.
  destruct res1 as [e|[a1 r1]]; [now cbn|]. now apply IH.
Qed.

(** X17.  Whether posting a comment fails makes no difference to anything
    but the comments: for any two behaviours of the comment API, [main]
    ends the same way, with the same files and the same output. *)
Theorem comment_failures_are_invisible (pr1 pr2 : str -> bool)
    (fetched : exn + list changed_file) (w : world) :
  let r1 := main root resolve_in_root resolve_parent_in_root MODE
              ALWAYS_INCLUDE reply pr1 os_error not_relative json_dumps
              fetched w in
  let r2 := main root resolve_in_root resolve_parent_in_root MODE
              ALWAYS_INCLUDE reply pr2 os_error not_relative json_dumps
              fetched w in
  snd r1 = snd r2
  /\ disk (fst r1) = disk (fst r2) /\ stdout (fst r1) = stdout (fst r2).
Proof.
  unfold AgentsPipeline.main.
  destruct fetched as [e|[|f files]]; try now cbn.
  destruct (map_changed (disk w) (f :: files)) as [|it items]; [now cbn|].
  destruct (loop_agree pr1 pr2 (it :: items) w w false [] eq_refl eq_refl)
    as (E & Ed & Es).
  destruct (loop _ _ _ _ pr1 _ _ (it :: items) w false []) as [v1 res1].
  destruct (loop _ _ _ _ pr2 _ _ (it :: items) w false []) as [v2 res2].
  cbn [fst snd] in *. subst res2.
  destruct res1 as [e|[a report]]; [now cbn|].
  rewrite Ed.
  destruct (write_text (disk v2) _ _); [now cbn|].
  destruct a; [|now cbn].
  destruct (write_text f0 _ _); now cbn.
Qed.

End Main.

End MainFacts.

(** ** Further facts about the agents-instructions merge *)

Module AgentsMore.

Import UpdateAgents AgentsNotions PyStrFacts AgentsFacts.

(** X18.  [ensure_always_include_block] is idempotent: enforcing the block
    on a text on which it was enforced changes nothing. *)
Theorem ensure_block_idempotent (text required : str) :
  ensure_always_include_block
    (ensure_always_include_block text required) required
  = ensure_always_include_block text required.
Proof. apply ensure_present, ensure_contains. Qed.

(** X19.  Whatever the generator does (raise, reply with anything), the
    content [llm_update] returns holds the stripped always-include block;
    and a reply with a non-empty [updated_content] is kept whole, as the
    start of the content returned. *)
Theorem block_is_always_enforced (ALWAYS_INCLUDE : str) (on_disk : option str)
    (g : generation) :
  contains (strip ALWAYS_INCLUDE) (fst (llm_update ALWAYS_INCLUDE on_disk g))
  = true
  /\ forall d v,
       g = Dict d -> updated_content d = Some v -> py_str v <> [] ->
       firstn (length (py_str v)) (fst (llm_update ALWAYS_INCLUDE on_disk g))
       = py_str v.
Proof.
  split.
  - unfold llm_update.
    destruct g as [| |d]; [| |destruct (updated_content d)];
      cbn [fst]; apply ensure_contains.
  - intros d v -> Hv Hne. unfold llm_update. rewrite Hv. cbn [fst].
    rewrite (truthy_nonempty _ Hne).
    destruct (ensure_extends (py_str v) ALWAYS_INCLUDE) as [tail ->].
    apply firstn_skipn_app3.
Qed.

(** X20.  A reply that gives nothing to use (an exception, a JSON value
    that is no object, an object without [updated_content], or an empty
    [updated_content]) leaves the current content, with the block enforced;
    the summary is the fixed notice for an exception or a missing key and
    empty for a value that is no object. *)
Theorem unusable_reply_keeps_current (ALWAYS_INCLUDE : str)
    (on_disk : option str) (g : generation) :
  unusable g = true ->
  let current := match on_disk with Some t => t | None => [] end in
  fst (llm_update ALWAYS_INCLUDE on_disk g)
  = ensure_always_include_block current ALWAYS_INCLUDE
  /\ (g = Raises \/ (exists d, g = Dict d /\ updated_content d = None) ->
      snd (llm_update ALWAYS_INCLUDE on_disk g) = NOTICE)
  /\ (g = NotADict -> snd (llm_update ALWAYS_INCLUDE on_disk g) = []).
Proof.
  intros Hu current. unfold llm_update. fold current.
  destruct g as [| |d]; cbn [unusable] in Hu.
  - cbn [fst snd]. split; [now destruct (truthy current)|].
    split; [reflexivity | discriminate].
  - cbn [fst snd truthy]. split; [reflexivity|].
    split; [|reflexivity]. intros [H|(d & H & _)]; discriminate.
  - destruct (updated_content d) as [v|] eqn:E.
    + apply negb_true_iff in Hu. cbn [fst snd]. rewrite Hu.
      split; [reflexivity|]. split; [|discriminate].
      intros [H|(d' & [= <-] & H)]; [discriminate | congruence].
    + cbn [fst snd]. split; [now destruct (truthy current)|].
      split; [reflexivity | discriminate].
Qed.

Lemma module_level_started (py_int : str -> option Z) (lower : str -> str)
    (include_file : str -> option (exn + str))
    (getenv : string -> option str) (MODE ALWAYS_INCLUDE : str) :
  py_int [] = None ->
  module_level py_int lower include_file getenv = inr (MODE, ALWAYS_INCLUDE) ->
  unset getenv "REPO" = false /\ unset getenv "PR_NUMBER" = false
  /\ exists t, getenv "GITHUB_TOKEN"%string = Some t.
Proof.
  intros Hint. unfold module_level, unset.
  destruct (getenv "REPO"%string) as [r|]; [|discriminate].
  destruct r as [|c r]; [discriminate|].
  destruct (negb _); [discriminate|].
  destruct (getenv "PR_NUMBER"%string) as [n|]; [|discriminate].
  destruct n as [|d n]; [now rewrite Hint|].
  destruct (py_int (d :: n)); [|discriminate].
  destruct (getenv "GITHUB_TOKEN"%string) as [t|]; [|discriminate].
  intros _. repeat split. now exists t.
Qed.

(** X21.  The module-level lines run before the guard of the [__main__]
    block.  A missing [REPO], [PR_NUMBER] or [GITHUB_TOKEN] ends the process
    there, in a [KeyError] (or in the [ValueError] of an earlier line),
    never in the guard.  The guard's exit with status 2 is reached, whatever
    [main()] would do, when [GITHUB_TOKEN] is set but empty, with that
    name printed, and otherwise when [OPENAI_API_KEY] is missing or empty;
    the process exits through [sys.exit] in no other case. *)
Theorem guard_after_import (py_int : str -> option Z) (lower : str -> str)
    (include_file : str -> option (exn + str))
    (getenv : string -> option str) (main : str -> str -> main_outcome) :
  py_int [] = None ->
  let run := script py_int lower include_file getenv main in
  ((getenv "REPO" = None \/ getenv "PR_NUMBER" = None
    \/ getenv "GITHUB_TOKEN" = None)%string ->
   exists key, run = ImportFails (KeyError key)
               \/ run = ImportFails (ValueError key))
  /\ (forall MODE ALWAYS_INCLUDE,
        module_level py_int lower include_file getenv
        = inr (MODE, ALWAYS_INCLUDE) ->
        (getenv "GITHUB_TOKEN"%string = Some [] ->
         run = Runs [missing "GITHUB_TOKEN"] (Exit 2))
        /\ (getenv "GITHUB_TOKEN"%string <> Some [] ->
            unset getenv "OPENAI_API_KEY" = true ->
            run = Runs [missing "OPENAI_API_KEY"] (Exit 2)))
  /\ (forall err code,
        run = Runs err (Exit code) ->
        code = 2%Z
        /\ (getenv "GITHUB_TOKEN"%string = Some []
            /\ err = [missing "GITHUB_TOKEN"]
            \/ unset getenv "OPENAI_API_KEY" = true
               /\ err = [missing "OPENAI_API_KEY"])).
Proof.
  intros Hint run.
  assert (Guard : forall MODE AI,
            module_level py_int lower include_file getenv = inr (MODE, AI) ->
            exists t, getenv "GITHUB_TOKEN"%string = Some t
              /\ forall m,
                   entry_point getenv MODE m
                   = if negb (truthy t)
                     then ([missing "GITHUB_TOKEN"], Exit 2)
                     else if unset getenv "OPENAI_API_KEY"
                          then ([missing "OPENAI_API_KEY"], Exit 2)
                          else match m with
                               | MainReturns => ([], Finishes)
                               | MainRaises e =>
                                   ([lit "update_agents.py failed: "
                                     ++ message e],
                                    if str_eqb MODE (lit "apply")
                                    then Propagates e else Finishes)
                               end).
  { intros MODE AI E.
    destruct (module_level_started _ _ _ _ _ _ Hint E) as (H1 & H2 & t & Ht).
    exists t. split; [exact Ht|]. intros m.
    unfold entry_point, REQUIRED_KEYS. cbn [List.find]. rewrite H1, H2.
    unfold unset at 1. rewrite Ht.
    destruct (negb (truthy t)); [reflexivity|].
    now destruct (unset getenv "OPENAI_API_KEY"). }
  split; [|split].
  - intros H. unfold run, script, module_level.
    destruct (getenv "REPO"%string) as [r|]; [|exists "REPO"%string; now left].
    destruct (negb _); [exists "REPO"%string; now right|].
    destruct (getenv "PR_NUMBER"%string) as [n|];
      [|exists "PR_NUMBER"%string; now left].
    destruct (py_int n); [|exists "PR_NUMBER"%string; now right].
    destruct (getenv "GITHUB_TOKEN"%string) as [t|];
      [|exists "GITHUB_TOKEN"%string; now left].
    destruct H as [H|[H|H]]; discriminate.
  - intros MODE AI E. destruct (Guard MODE AI E) as (t & Ht & G).
    unfold run, script. rewrite E. cbv zeta. rewrite G. split.
    + intros H. rewrite H in Ht. injection Ht as <-. reflexivity.
    + intros H Hu. destruct t as [|c t]; [now rewrite Ht in H|].
      cbn [truthy negb]. now rewrite Hu.
  - intros err code. unfold run, script.
    destruct (module_level py_int lower include_file getenv)
      as [e|[MODE AI]] eqn:E; [discriminate|].
    destruct (Guard MODE AI eq_refl) as (t & Ht & G). cbv zeta. rewrite G.
    destruct t as [|c t]; cbn [truthy negb].
    + intros [= <- <-]. split; [reflexivity|]. now left.
    + destruct (unset getenv "OPENAI_API_KEY") eqn:U.
      * intros [= <- <-]. split; [reflexivity|]. now right.
      * destruct (main MODE AI); cbn [fst snd]; [discriminate|].
        destruct (str_eqb MODE (lit "apply")); discriminate.
Qed.

End AgentsMore.

(** ** The further facts on concrete inputs *)

Module Tried.

Import Collect GenChangelog UpdateAgents AgentsPipeline ChangelogNotions
  AgentsNotions Samples.
Import PyStrFacts ChangelogFacts.

Lemma changed_order_iterates :
  iterates changed_order (top_dirs changed_paths).
Proof. intros x. cbn. intuition. Qed.

Lemma scope_guess_most_frequent_witness :
  In (Collect.scope_guess changed_order changed_paths) (top_dirs changed_paths)
  /\ Collect.scope_guess changed_order changed_paths = lit "src".
Proof.
  split; [|reflexivity].
  apply (CollectFacts.scope_guess_most_frequent changed_order changed_paths).
  - exact changed_order_iterates.
  - discriminate.
Defined.

Lemma scope_guess_is_a_segment_witness :
  has_slash (Collect.scope_guess changed_order changed_paths) = false.
Proof.
  apply (CollectFacts.scope_guess_is_a_segment changed_order changed_paths).
  exact changed_order_iterates.
Defined.

Lemma already_recorded_iff_witness :
  already_recorded Re.ascii_alnum_only 42 recorded_doc = true
  /\ already_recorded Re.ascii_alnum_only 4 recorded_doc = false.
Proof.
  split; [|reflexivity].
  apply (ChangelogMore.already_recorded_iff Re.ascii_alnum_only 42
           recorded_doc).
  exists (lit "# Changelog" ++ [LF; LF] ++ UNRELEASED ++ [LF; LF]
          ++ lit "### Fixed" ++ [LF] ++ lit " - Fix crash ("),
         (lit ", @bob)" ++ [LF]).
  split; reflexivity.
Defined.

Lemma rerun_is_noop_witness :
  fst (run Re.ascii_alnum_only 7 padded_title_ctx GenChangelog.Raises
         (Some (lit "# Changelog" ++ [LF; LF]
                ++ UNRELEASED ++ [LF; LF]
                ++ lit "### Added" ++ [LF]
                ++ lit " - Add dark mode (#7, @alice)" ++ [LF; LF; LF]
                ++ lit "## [1.0.0]" ++ [LF; LF]
                ++ lit "### Fixed" ++ [LF]
                ++ lit " - Fix crash (#42, @bob)" ++ [LF])))
  = Some (lit "# Changelog" ++ [LF; LF]
          ++ UNRELEASED ++ [LF; LF]
          ++ lit "### Added" ++ [LF]
          ++ lit " - Add dark mode (#7, @alice)" ++ [LF; LF; LF]
          ++ lit "## [1.0.0]" ++ [LF; LF]
          ++ lit "### Fixed" ++ [LF]
          ++ lit " - Fix crash (#42, @bob)" ++ [LF]).
Proof.
  exact (ChangelogMore.rerun_is_noop Re.ascii_alnum_only 7 padded_title_ctx
           (Object added_entry) added_entry two_release_doc _
           eq_refl eq_refl eq_refl padded_title_ctx GenChangelog.Raises).
Defined.

Lemma section_created_under_unreleased_witness :
  run Re.ascii_alnum_only 7 padded_title_ctx (Object added_entry)
    (Some two_release_doc)
  = (Some (lit "# Changelog" ++ [LF; LF]
           ++ UNRELEASED ++ [LF; LF]
           ++ lit "### Added" ++ [LF]
           ++ lit " - Add dark mode (#7, @alice)" ++ [LF; LF; LF]
           ++ lit "## [1.0.0]" ++ [LF; LF]
           ++ lit "### Fixed" ++ [LF]
           ++ lit " - Fix crash (#42, @bob)" ++ [LF]),
     Completed).
Proof.
  exact (ChangelogMore.section_created_under_unreleased Re.ascii_alnum_only
           7 padded_title_ctx (Object added_entry) added_entry
           two_release_doc
           (lit "# Changelog" ++ [LF; LF])
           ([LF] ++ lit "## [1.0.0]" ++ [LF; LF] ++ lit "### Fixed" ++ [LF]
            ++ lit " - Fix crash (#42, @bob)" ++ [LF])
           eq_refl eq_refl eq_refl eq_refl eq_refl eq_refl eq_refl).
Defined.

Lemma skeleton_synthesis_witness :
  run Re.ascii_alnum_only 7 padded_title_ctx GenChangelog.Raises None
  = (Some (skeleton ++ lit "### Changed" ++ [LF]
           ++ lit " - [src] x (#7, @alice)" ++ [LF; LF; LF]),
     Completed).
Proof.
  exact (ChangelogMore.skeleton_synthesis Re.ascii_alnum_only 7
           padded_title_ctx GenChangelog.Raises (fallback padded_title_ctx)
           eq_refl).
Defined.

Lemma mapping_attaches_to_targets_witness :
  attached (sample_mapping repo agents_closed) repo_agents (lit "src/a.py").
Proof.
  apply (TargetsFacts.mapping_attaches_to_targets repo sample_resolve
           sample_resolve_parent (sample_fs agents_closed) sample_files).
  split; [now left | left; now left].
Defined.

Lemma mapping_covers_every_file_witness :
  sample_mapping repo agents_closed <> [].
Proof.
  destruct (TargetsFacts.mapping_covers_every_file repo sample_resolve
              sample_resolve_parent (sample_fs agents_closed) sample_files)
    as (_ & _ & _ & H).
  apply H. discriminate.
Defined.

Lemma suggest_mode_writes_only_the_report_witness :
  disk (fst (sample_main repo (lit "suggest") agents_closed)) repo_agents
  = Some (File agents_closed).
Proof.
  apply (MainFacts.suggest_mode_writes_only_the_report repo sample_resolve
           sample_resolve_parent (lit "suggest") block_xyz sample_reply
           sample_error sample_error sample_dumps never_raises
           (inr sample_files) (sample_world agents_closed) repo_agents).
  - reflexivity.
  - discriminate.
Defined.




Lemma target_outside_root_raises_witness :
  exists w' e,
    sample_main repo_src (lit "apply") agents_closed = (w', MainRaises e).
Proof.
  apply (MainFacts.target_outside_root_raises repo_src sample_resolve
           sample_resolve_parent (lit "apply") block_xyz sample_reply
           sample_error sample_error sample_dumps never_raises
           sample_files (sample_world agents_closed) repo_agents).
  - now left.
  - reflexivity.
Defined.


Lemma block_is_always_enforced_witness :
  firstn 2
    (fst (llm_update block_xyz None
            (Dict {| updated_content := Some (JString (lit "ok"));
                     UpdateAgents.summary := None |})))
  = lit "ok".
Proof.
  destruct (AgentsMore.block_is_always_enforced block_xyz None
              (Dict {| updated_content := Some (JString (lit "ok"));
                       UpdateAgents.summary := None |})) as [_ H].
  apply (H _ (JString (lit "ok")) eq_refl eq_refl). discriminate.
Defined.

Lemma unusable_reply_keeps_current_witness :
  fst (llm_update block_xyz (Some agents_closed) NotADict)
  = ensure_always_include_block agents_closed block_xyz
  /\ snd (llm_update block_xyz (Some agents_closed) NotADict) = [].
Proof.
  destruct (AgentsMore.unusable_reply_keeps_current block_xyz
              (Some agents_closed) NotADict eq_refl) as (H1 & _ & H3).
  split; [exact H1 | now apply H3].
Defined.

Lemma guard_after_import_witness :
  script sample_int (fun s => s) no_include_file env_empty_token
    (fun _ _ => MainReturns)
  = Runs [missing "GITHUB_TOKEN"] (Exit 2)
  /\ exists key,
       script sample_int (fun s => s) no_include_file env_no_repo
         (fun _ _ => MainReturns)
       = ImportFails (KeyError key)
       \/ script sample_int (fun s => s) no_include_file env_no_repo
            (fun _ _ => MainReturns)
          = ImportFails (ValueError key).
Proof.
  split.
  - destruct (AgentsMore.guard_after_import sample_int (fun s => s)
                no_include_file env_empty_token (fun _ _ => MainReturns)
                eq_refl) as (_ & H & _).
    exact (proj1 (H _ _ eq_refl) eq_refl).
  - destruct (AgentsMore.guard_after_import sample_int (fun s => s)
                no_include_file env_no_repo (fun _ _ => MainReturns)
                eq_refl) as (H & _).
    apply H. now left.
Defined.

Lemma summarize_files_lines_witness :
  split_on LF (summarize_files sample_files 0) = [more_line 1]
  /\ length (split_on LF (summarize_files sample_files 0)) <= 0 + 1.
Proof.
  apply (CollectFacts.summarize_files_lines sample_files 0).
  - intros f [<-|[]]. split; reflexivity.
  - discriminate.
Defined.

End Tried.
